(** * treego: the abortable tree builder and its two consumers

    A shallow embedding of [treego/main.go]: the [Node] tree, the
    process-wide abort signal ([abort], [once], [CloseOnce],
    [ResetGlobalState]), the concurrent builder [BuildTreeSafe] as an
    interleaving step machine over its goroutines, and the two
    sequential consumers [SearchDFS] and [PrintTreeDFS]. *)

From Stdlib Require Import Ascii String Lia.
From stdpp Require Import base list strings.

Local Open Scope string_scope.
Local Open Scope list_scope.

(** ** Data model *)

(** [type Node struct { Name string; Children []*Node; IsDir bool; Path string }].
    A [*Node] is an [option Node]: [None] is the nil pointer, so that a
    children slice may, as far as the type goes, hold nil entries. *)
#[local] Unset Elimination Schemes.
Inductive Node : Type :=
  mkNode { Name : string; Children : list (option Node); IsDir : bool; Path : string }.
#[local] Set Elimination Schemes.

(** The non-nil children of a slice of node pointers, in slice order. *)
Definition nonNil (ps : list (option Node)) : list Node := omap id ps.

(** A tree without a nil pointer at any depth. *)
Fixpoint wf (n : Node) : Prop :=
  (fix all (ps : list (option Node)) : Prop :=
     match ps with
     | [] => True
     | None :: _ => False
     | Some c :: ps' => wf c /\ all ps'
     end) (Children n).

(** Depth-first pre-order enumeration of the nodes of a tree. *)
Fixpoint nodes (n : Node) : list Node :=
  n :: (fix walk (ps : list (option Node)) : list Node :=
          match ps with
          | [] => []
          | None :: ps' => walk ps'
          | Some c :: ps' => nodes c ++ walk ps'
          end) (Children n).

(** ** The cancellation signal *)

(** [var abort = make(chan struct{})] and [var once sync.Once]: the channel
    is observed only as open or closed, the [sync.Once] only as fresh or
    done. *)
Record Signal : Type := mkSignal { closed : bool; onceDone : bool }.

Definition initial : Signal := {| closed := false; onceDone := false |}.

(** The non-blocking poll [select { case <-abort: ...; default: }]. *)
Definition isTripped (s : Signal) : bool := closed s.

(** [func CloseOnce() { once.Do(func() { close(abort) }) }].  [once.Do]
    runs its argument only while the once is fresh; [close] of a closed
    channel panics, which is the [None] result. *)
Definition CloseOnce (s : Signal) : option Signal :=
  if onceDone s then Some s
  else if closed s then None
  else Some {| closed := true; onceDone := true |}.

(** [func ResetGlobalState() { abort = make(chan struct{}); once = sync.Once{} }] *)
Definition ResetGlobalState (_ : Signal) : Signal :=
  {| closed := false; onceDone := false |}.

(** The states the three operations can reach from [initial]: the channel
    is closed exactly when the once has run. *)
Definition consistent (s : Signal) : Prop := closed s = onceDone s.

(** [n] calls of [CloseOnce] in a row, with the signal states passed
    through (the state after each call), or [None] on a panic. *)
Fixpoint trips (n : nat) (s : Signal) : option (list Signal) :=
  match n with
  | 0 => Some []
  | S n' =>
      match CloseOnce s with
      | None => None
      | Some s' =>
          match trips n' s' with
          | None => None
          | Some tr => Some (s' :: tr)
          end
      end
  end.

(** Number of open-to-tripped transitions along a sequence of states that
    starts in [s]. *)
Fixpoint transitions (s : Signal) (tr : list Signal) : nat :=
  match tr with
  | [] => 0
  | s' :: tr' =>
      (if negb (isTripped s) && isTripped s' then 1 else 0) + transitions s' tr'
  end.

(** ** Library functions the consumers call *)

(** [strings.HasPrefix(s, p)] on byte strings. *)
Fixpoint HasPrefix (s p : string) {struct p} : bool :=
  match p, s with
  | EmptyString, _ => true
  | String _ _, EmptyString => false
  | String b p', String a s' => if Ascii.eqb a b then HasPrefix s' p' else false
  end.

(** [strings.Contains(s, substr)]: [substr] occurs at some offset of [s]. *)
Fixpoint Contains (s substr : string) : bool :=
  HasPrefix s substr ||
  match s with
  | EmptyString => false
  | String _ s' => Contains s' substr
  end.

(** [strings.ToLower] belongs to Go's library and maps every Unicode
    letter; the consumers take it as a parameter.  [asciiToLower] is
    the instance that agrees with it on ASCII strings. *)
Definition lowerByte (c : ascii) : ascii :=
  let n := nat_of_ascii c in
  if (65 <=? n)%nat && (n <=? 90)%nat then ascii_of_nat (n + 32) else c.

Fixpoint asciiToLower (s : string) : string :=
  match s with
  | EmptyString => EmptyString
  | String c s' => String (lowerByte c) (asciiToLower s')
  end.

(** A compiled [*regexp.Regexp] is used only through [MatchString]; the
    nil regex is [None]. *)
Definition Regexp : Type := string -> bool.
Definition MatchString (re : Regexp) (s : string) : bool := re s.

(** ** Console output and nil dereference *)

(** What a consumer call leaves behind: the lines written by
    [fmt.Println], and whether the call returned or died on a nil
    pointer dereference. *)
Inductive Outcome : Type := Returned | Panicked.
Definition Out : Type := (list string * Outcome)%type.

Definition skip : Out := ([], Returned).
Definition panic : Out := ([], Panicked).
Definition Println (line : string) : Out := ([line], Returned).

(** Sequencing: the second part runs only when the first returned. *)
Definition andThen (a b : Out) : Out :=
  match a with
  | (o, Returned) => (o ++ fst b, snd b)
  | (o, Panicked) => (o, Panicked)
  end.

Notation "a >> b" := (andThen a b) (at level 62, right associativity).

(** ** SearchDFS *)

(** The body of [SearchDFS] for a non-nil [node]. *)
Fixpoint SearchNode (ToLower : string -> string) (node : Node) (query : string) : Out :=
  (if Contains (ToLower (Name node)) (ToLower query)
   then Println (Path node) else skip) >>
  (fix range (cs : list (option Node)) : Out :=
     match cs with
     | [] => skip
     | None :: _ => panic
     | Some child :: cs' => SearchNode ToLower child query >> range cs'
     end) (Children node).

(** [func SearchDFS(node *Node, query string)]; reading [node.Name]
    through a nil [node] panics. *)
Definition SearchDFS (ToLower : string -> string) (node : option Node) (query : string) : Out :=
  match node with
  | None => panic
  | Some n => SearchNode ToLower n query
  end.

(** ** PrintTreeDFS *)

(** The inner loop of lines 105-111: [Some true] when the [break] is
    taken, [Some false] when the range ends, [None] on a nil grandchild
    reached before a match. *)
Fixpoint hasMatch (regex : Regexp) (grands : list (option Node)) : option bool :=
  match grands with
  | [] => Some false
  | None :: _ => None
  | Some grand :: rest =>
      if MatchString regex (Name grand) then Some true else hasMatch regex rest
  end.

(** The body of [PrintTreeDFS] for a non-nil [node]: the range over
    [node.Children] with its index [i]; [skip >> range ...] is a
    [continue]. *)
Fixpoint PrintNode (node : Node) (prefix : string) (regex : option Regexp)
    (dirsOnly : bool) : Out :=
  (fix range (i : nat) (cs : list (option Node)) : Out :=
     match cs with
     | [] => skip
     | None :: _ => panic
     | Some child :: cs' =>
         let emit : Out :=
           let last := (i =? length (Children node) - 1)%nat in
           let branch := if last then "└── " else "├── " in
           let nextPrefix := if last then prefix +:+ "    " else prefix +:+ "│   " in
           Println (prefix +:+ branch +:+ Name child) >>
           (if IsDir child then PrintNode child nextPrefix regex dirsOnly else skip) in
         (if dirsOnly && negb (IsDir child) then skip
          else
            match regex with
            | Some re =>
                if negb (MatchString re (Name child)) then
                  if IsDir child then
                    match hasMatch re (Children child) with
                    | None => panic
                    | Some false => skip
                    | Some true => emit
                    end
                  else skip
                else emit
            | None => emit
            end) >>
         range (S i) cs'
     end) 0%nat (Children node).

(** [func PrintTreeDFS(node *Node, prefix string, regex *regexp.Regexp, dirsOnly bool)] *)
Definition PrintTreeDFS (node : option Node) (prefix : string) (regex : option Regexp)
    (dirsOnly : bool) : Out :=
  match node with
  | None => panic
  | Some n => PrintNode n prefix regex dirsOnly
  end.

(** The range loop of [PrintNode] on its own, from index [i] on, with
    [total] for [len(node.Children)]. *)
Definition printRange (total : nat) (prefix : string) (regex : option Regexp)
    (dirsOnly : bool) : nat -> list (option Node) -> Out :=
  fix range (i : nat) (cs : list (option Node)) : Out :=
    match cs with
    | [] => skip
    | None :: _ => panic
    | Some child :: cs' =>
        let emit : Out :=
          let last := (i =? total - 1)%nat in
          let branch := if last then "└── " else "├── " in
          let nextPrefix := if last then prefix +:+ "    " else prefix +:+ "│   " in
          Println (prefix +:+ branch +:+ Name child) >>
          (if IsDir child then PrintNode child nextPrefix regex dirsOnly else skip) in
        (if dirsOnly && negb (IsDir child) then skip
         else
           match regex with
           | Some re =>
               if negb (MatchString re (Name child)) then
                 if IsDir child then
                   match hasMatch re (Children child) with
                   | None => panic
                   | Some false => skip
                   | Some true => emit
                   end
                 else skip
               else emit
           | None => emit
           end) >>
        range (S i) cs'
    end.

(** ** The print filter, as the specification words it *)

(** The one-level lookahead: some immediate child's name matches. *)
Definition lookahead (re : Regexp) (child : Node) : bool :=
  existsb (fun grand => MatchString re (Name grand)) (nonNil (Children child)).

(** The per-child filter: a non-directory is dropped under [dirsOnly];
    with a regex, a child is kept when its name matches or when it is a
    directory whose lookahead succeeds. *)
Definition kept (regex : option Regexp) (dirsOnly : bool) (child : Node) : bool :=
  negb (dirsOnly && negb (IsDir child)) &&
  match regex with
  | None => true
  | Some re => MatchString re (Name child) || (IsDir child && lookahead re child)
  end.

Definition connector (last : bool) : string := if last then "└── " else "├── ".
Definition continuation (last : bool) : string := if last then "    " else "│   ".

(** The lines that the child at index [i] of [total] siblings
    contributes: nothing when filtered out, else its own line and, for a
    directory, the lines of its subtree. *)
Definition block (total : nat) (prefix : string) (regex : option Regexp) (dirsOnly : bool)
    (i : nat) (child : Node) : list string :=
  if kept regex dirsOnly child then
    let last := (i =? total - 1)%nat in
    (prefix +:+ connector last +:+ Name child) ::
    (if IsDir child
     then (PrintTreeDFS (Some child) (prefix +:+ continuation last) regex dirsOnly).1
     else [])
  else [].

(** ** The operating system seen by the builder *)

(** What [BuildTreeSafe] reads of an [os.FileInfo]. *)
Record FileInfo : Type := mkInfo { fiName : string; fiIsDir : bool }.

(** [os.Stat], [os.ReadDir] (the entries' names, in listing order) and
    [filepath.Join]; an error result is [None].  The filesystem is the
    same throughout a build: a path answers every stat and listing
    alike. *)
Record OS : Type := mkOS {
  Stat : string -> option FileInfo;
  ReadDir : string -> option (list string);
  Join : string -> string -> string
}.

(** A filesystem access and whether it succeeded. *)
Inductive Event : Type :=
| EvStat (path : string) (ok : bool)
| EvReadDir (path : string) (ok : bool).

Definition failed (e : Event) : bool :=
  match e with
  | EvStat _ ok | EvReadDir _ ok => negb ok
  end.

(** The process state shared by all goroutines: the signal, and the
    filesystem accesses made so far, oldest first. *)
Record World : Type := mkWorld { sig : Signal; log : list Event }.

Definition record (w : World) (e : Event) : World :=
  {| sig := sig w; log := log w ++ [e] |}.

(** [CloseOnce()] on the shared state. *)
Definition trip (w : World) : option World :=
  match CloseOnce (sig w) with
  | Some s => Some {| sig := s; log := log w |}
  | None => None
  end.

(** ** BuildTreeSafe as a machine *)

(** A goroutine of the build, at one of the program points of
    [BuildTreeSafe] between which other goroutines may run. *)
#[local] Unset Elimination Schemes.
Inductive Task : Type :=
| Go (path name : string)
    (** a spawned [go func(i, e)], before its poll of [abort] (line 58) *)
| Enter (path : string)
    (** [BuildTreeSafe(path)] called, before its poll of [abort] (line 27) *)
| AtStat (path : string)
    (** before [os.Stat(path)] (line 34) *)
| StatFailed
    (** [err != nil] after the stat, before [CloseOnce()] (line 36) *)
| AtReadDir (node : Node) (path : string)
    (** [node] built from the stat, before [os.ReadDir(path)] (line 45) *)
| ReadDirFailed
    (** [err != nil] after the listing, before [CloseOnce()] (line 47) *)
| Wait (node : Node) (kids : list Task)
    (** in [wg.Wait()] (line 68); [kids] are the goroutines of the entries,
        goroutine [i] owning the slot [childNodes[i]] *)
| Done (result : option Node)
    (** returned; for a goroutine, [result] is what it left in its slot *).
#[local] Set Elimination Schemes.

(** The slot of a finished goroutine. *)
Definition slot (t : Task) : option (option Node) :=
  match t with
  | Done r => Some r
  | _ => None
  end.

(** Lines 70-74: append the non-nil slots to [node.Children], in slot
    order. *)
Definition assemble (node : Node) (childNodes : list (option Node)) : Node :=
  {| Name := Name node;
     Children :=
       fold_left (fun acc c => match c with Some _ => acc ++ [c] | None => acc end)
                 childNodes (Children node);
     IsDir := IsDir node;
     Path := Path node |}.

(** A task that is not waiting is a single goroutine: only [[]] moves. *)
Definition solo (t : Task) : bool :=
  match t with
  | Wait _ _ => false
  | _ => true
  end.

(** One atomic action of the goroutine at position [pos] of the task
    tree: [[]] is the task itself, [i :: pos'] leads into the goroutine
    of entry [i] of a waiting task.  [None]: that goroutine cannot move
    (it has returned, it is blocked in [wg.Wait()], there is no such
    goroutine) or the action panics. *)
Fixpoint step (os : OS) (pos : list nat) (t : Task) (w : World) {struct pos}
    : option (Task * World) :=
  match pos with
  | [] =>
      match t with
      | Go path name =>
          if isTripped (sig w) then Some (Done None, w)
          else Some (Enter (Join os path name), w)
      | Enter path =>
          if isTripped (sig w) then Some (Done None, w)
          else Some (AtStat path, w)
      | AtStat path =>
          match Stat os path with
          | None => Some (StatFailed, record w (EvStat path false))
          | Some info =>
              let node := {| Name := fiName info; Children := [];
                             IsDir := fiIsDir info; Path := path |} in
              if negb (fiIsDir info)
              then Some (Done (Some node), record w (EvStat path true))
              else Some (AtReadDir node path, record w (EvStat path true))
          end
      | StatFailed =>
          match trip w with
          | Some w' => Some (Done None, w')
          | None => None
          end
      | AtReadDir node path =>
          match ReadDir os path with
          | None => Some (ReadDirFailed, record w (EvReadDir path false))
          | Some entries =>
              Some (Wait node (map (Go path) entries), record w (EvReadDir path true))
          end
      | ReadDirFailed =>
          match trip w with
          | Some w' => Some (Done None, w')
          | None => None
          end
      | Wait node kids =>
          match mapM slot kids with
          | Some childNodes => Some (Done (Some (assemble node childNodes)), w)
          | None => None
          end
      | Done _ => None
      end
  | i :: pos' =>
      match t with
      | Wait node kids =>
          match kids !! i with
          | Some kid =>
              match step os pos' kid w with
              | Some (kid', w') => Some (Wait node (<[i:=kid']> kids), w')
              | None => None
              end
          | None => None
          end
      | _ => None
      end
  end.

(** A schedule names, action by action, the goroutine that moves. *)
Definition Schedule : Type := list (list nat).

Fixpoint run (os : OS) (sched : Schedule) (c : Task * World) : option (Task * World) :=
  match sched with
  | [] => Some c
  | pos :: sched' =>
      match step os pos c.1 c.2 with
      | Some c' => run os sched' c'
      | None => None
      end
  end.

(** [BuildTreeSafe(path)], called in world [w], returns [r] and leaves
    the world [w'], under some interleaving of its goroutines. *)
Definition Returns (os : OS) (path : string) (w : World) (r : option Node) (w' : World) : Prop :=
  exists sched, run os sched (Enter path, w) = Some (Done r, w').

(** The leftmost goroutine that has not returned, if any: the in-order
    schedule. *)
Fixpoint next (t : Task) : option (list nat) :=
  match t with
  | Done _ => None
  | Wait _ kids =>
      Some ((fix first (i : nat) (ks : list Task) : list nat :=
               match ks with
               | [] => []
               | k :: ks' =>
                   match next k with
                   | Some pos => i :: pos
                   | None => first (S i) ks'
                   end
               end) 0%nat kids)
  | _ => Some []
  end.

(** Run the in-order schedule for at most [fuel] actions. *)
Fixpoint exec (os : OS) (fuel : nat) (c : Task * World) : option (Task * World) :=
  match fuel with
  | 0 => Some c
  | S fuel' =>
      match next c.1 with
      | None => Some c
      | Some pos =>
          match step os pos c.1 c.2 with
          | Some c' => exec os fuel' c'
          | None => None
          end
      end
  end.

(** ** What the builder establishes *)

(** Pointwise relation of two lists of the same length, as a function,
    so that it can carry a recursive occurrence. *)
Fixpoint All2 {A B : Type} (P : A -> B -> Prop) (xs : list A) (ys : list B)
    {struct ys} : Prop :=
  match ys, xs with
  | [], [] => True
  | y :: ys', x :: xs' => P x y /\ All2 P xs' ys'
  | _, _ => False
  end.

(** [Built os path n]: [n] is what a build of [path] may return.  Its
    fields are those of the stat of [path]; a non-directory has no
    children; the children of a directory are non-nil nodes built from a
    selection of the listed entries, in listing order. *)
Fixpoint Built (os : OS) (path : string) (n : Node) : Prop :=
  Path n = path /\
  Stat os path = Some {| fiName := Name n; fiIsDir := IsDir n |} /\
  if IsDir n then
    exists entries chosen,
      ReadDir os path = Some entries /\
      sublist chosen entries /\
      All2 (fun e c => match c with
                       | Some child => Built os (Join os path e) child
                       | None => False
                       end) chosen (Children n)
  else Children n = [].

(** [Good os path t]: [t] is a state of a build of [path]. *)
Fixpoint Good (os : OS) (path : string) (t : Task) : Prop :=
  match t with
  | Go parent name => path = Join os parent name
  | Enter p | AtStat p => path = p
  | StatFailed | ReadDirFailed => True
  | AtReadDir node p =>
      path = p /\
      node = {| Name := Name node; Children := []; IsDir := true; Path := path |} /\
      Stat os path = Some {| fiName := Name node; fiIsDir := true |}
  | Wait node kids =>
      node = {| Name := Name node; Children := []; IsDir := true; Path := path |} /\
      Stat os path = Some {| fiName := Name node; fiIsDir := true |} /\
      exists entries,
        ReadDir os path = Some entries /\
        All2 (fun e k => Good os (Join os path e) k) entries kids
  | Done None => True
  | Done (Some n) => Built os path n
  end.

(** Some goroutine has seen a failure and has not yet called
    [CloseOnce]. *)
Fixpoint pending (t : Task) : bool :=
  match t with
  | StatFailed | ReadDirFailed => true
  | Wait _ kids => existsb pending kids
  | _ => false
  end.



(** ** Finite subtrees *)

(** [fits os d path]: below [path], directories nest at most [d] deep
    (a file or an unreadable path fits any [d]). *)
Fixpoint fits (os : OS) (d : nat) (path : string) : bool :=
  match Stat os path with
  | Some info =>
      if fiIsDir info then
        match d with
        | 0 => false
        | S d' =>
            match ReadDir os path with
            | Some entries => forallb (fun e => fits os d' (Join os path e)) entries
            | None => true
            end
        end
      else true
  | None => true
  end.

(** Actions left from [os.ReadDir(path)] on, with [d] levels below. *)
Definition costRead (os : OS) (costBelow : string -> nat) (path : string) : nat :=
  1 + match ReadDir os path with
      | Some entries => 1 + sum_list_with (fun e => 2 + costBelow (Join os path e)) entries
      | None => 1
      end.

(** Actions left from [os.Stat(path)] on. *)
Fixpoint costStat (os : OS) (d : nat) (path : string) : nat :=
  1 + match Stat os path with
      | Some info =>
          if fiIsDir info then
            match d with
            | 0 => 0
            | S d' => costRead os (costStat os d') path
            end
          else 0
      | None => 1
      end.

(** A bound on the actions a task tree can still take. *)
Fixpoint weight (os : OS) (d : nat) (t : Task) : nat :=
  match t with
  | Go parent name => 2 + costStat os d (Join os parent name)
  | Enter p => 1 + costStat os d p
  | AtStat p => costStat os d p
  | StatFailed | ReadDirFailed => 1
  | AtReadDir _ p =>
      match d with
      | 0 => 0
      | S d' => costRead os (costStat os d') p
      end
  | Wait _ kids =>
      match d with
      | 0 => 0
      | S d' => 1 + sum_list_with (weight os d') kids
      end
  | Done _ => 0
  end.

(** The subtrees a task tree still has to visit are finite. *)
Fixpoint fitsTask (os : OS) (d : nat) (t : Task) : Prop :=
  match t with
  | Go parent name => fits os d (Join os parent name) = true
  | Enter p | AtStat p => fits os d p = true
  | StatFailed | ReadDirFailed | Done _ => True
  | AtReadDir _ p =>
      match d with
      | 0 => False
      | S d' =>
          match ReadDir os p with
          | Some entries => forallb (fun e => fits os d' (Join os p e)) entries = true
          | None => True
          end
      end
  | Wait _ kids =>
      match d with
      | 0 => False
      | S d' => Forall (fitsTask os d') kids
      end
  end.

(** ** Sequences of signal operations *)

(** A call of one of the two operations on the signal. *)
Inductive SignalOp : Type := OpCloseOnce | OpResetGlobalState.

(** The calls of [ops] one after the other; [None] when a [CloseOnce]
    panics. *)
Fixpoint runOps (ops : list SignalOp) (s : Signal) : option Signal :=
  match ops with
  | [] => Some s
  | OpCloseOnce :: ops' =>
      match CloseOnce s with
      | Some s' => runOps ops' s'
      | None => None
      end
  | OpResetGlobalState :: ops' => runOps ops' (ResetGlobalState s)
  end.

(** ** Shapes of trees and of filesystems *)

(** No node that is not a directory has children. *)
Fixpoint leafless (n : Node) : Prop :=
  (IsDir n = false -> Children n = []) /\
  (fix all (ps : list (option Node)) : Prop :=
     match ps with
     | [] => True
     | None :: ps' => all ps'
     | Some c :: ps' => leafless c /\ all ps'
     end) (Children n).

(** A node of a returned tree mirrors the filesystem: its path stats
    to its name and flag, and a directory's path can be listed. *)
Definition mirrors (os : OS) (m : Node) : Prop :=
  Stat os (Path m) = Some {| fiName := Name m; fiIsDir := IsDir m |} /\
  (IsDir m = true -> is_Some (ReadDir os (Path m))).

(** The whole subtree of [path], at most [d] directories deep, when
    every stat and listing in it succeeds; [None] otherwise. *)
Fixpoint snapshot (os : OS) (d : nat) (path : string) : option Node :=
  match Stat os path with
  | None => None
  | Some info =>
      if negb (fiIsDir info)
      then Some {| Name := fiName info; Children := []; IsDir := false; Path := path |}
      else
        match d with
        | 0 => None
        | S d' =>
            match ReadDir os path with
            | None => None
            | Some entries =>
                match mapM (fun e => snapshot os d' (Join os path e)) entries with
                | Some kids =>
                    Some {| Name := fiName info; Children := map Some kids;
                            IsDir := true; Path := path |}
                | None => None
                end
            end
        end
  end.

(** [Exact os d path t]: [t] is a state of a build of [path] in which
    nothing has failed and nothing can. *)
Fixpoint Exact (os : OS) (d : nat) (path : string) (t : Task) {struct t} : Prop :=
  is_Some (snapshot os d path) /\
  match t with
  | Go parent name => path = Join os parent name
  | Enter p | AtStat p => path = p
  | StatFailed | ReadDirFailed => False
  | AtReadDir node p =>
      path = p /\
      node = {| Name := Name node; Children := []; IsDir := true; Path := path |} /\
      Stat os path = Some {| fiName := Name node; fiIsDir := true |}
  | Wait node kids =>
      node = {| Name := Name node; Children := []; IsDir := true; Path := path |} /\
      Stat os path = Some {| fiName := Name node; fiIsDir := true |} /\
      match d with
      | 0 => False
      | S d' =>
          exists entries,
            ReadDir os path = Some entries /\
            All2 (fun e k => Exact os d' (Join os path e) k) entries kids
      end
  | Done r => r = snapshot os d path
  end.

(** The filesystem accesses a task tree may still make once the signal
    is tripped: a goroutine past its poll may stat and then list;
    every other goroutine polls first. *)
Fixpoint budget (t : Task) : nat :=
  match t with
  | AtStat _ => 2
  | AtReadDir _ _ => 1
  | Wait _ kids => sum_list_with budget kids
  | _ => 0
  end.

(** ** Prefixing the output *)

(** Every line of an output with [p] in front. *)
Definition indent (p : string) (o : Out) : Out := (map (String.append p) o.1, o.2).

(** ** The command *)

(** The parsed command line: the [path] argument and the [--search],
    [--regex] and [--dirs-only] flags. *)
Record Args : Type := mkArgs {
  argPath : string;
  argSearch : string;
  argRegex : string;
  argDirsOnly : bool
}.

(** Library functions [main] calls besides the filesystem:
    [strings.ToLower], [regexp.Compile] (the compiled regex or the
    error's text), [filepath.Clean], and the text of the error of a
    failed [os.Stat]. *)
Record Lib : Type := mkLib {
  libToLower : string -> string;
  libCompile : string -> Regexp + string;
  libClean : string -> string;
  libStatError : string -> string
}.

(** The last statement of [main]: search when a search string was
    given, else the root's name and the tree. *)
Definition present (lib : Lib) (args : Args) (re : option Regexp) (rootInfo : FileInfo)
    (root : option Node) : Out :=
  if negb (String.eqb (argSearch args) "")
  then SearchDFS (libToLower lib) root (argSearch args)
  else Println (fiName rootInfo) >> PrintTreeDFS root "" re (argDirsOnly args).

(** [func main()] after [kingpin.MustParse], in a fresh process, with
    the goroutines of the build scheduled by [sched]: the console
    output and whether [main] returned, or [None] when [sched] does not
    take the build to its return. *)
Definition main (os : OS) (lib : Lib) (args : Args) (sched : Schedule) : option Out :=
  let compiled : option Regexp + string :=
    if negb (String.eqb (argRegex args) "")
    then match libCompile lib (argRegex args) with
         | inl re => inl (Some re)
         | inr err => inr err
         end
    else inl None in
  match compiled with
  | inr err => Some (Println ("Invalid regex: " +:+ err))
  | inl re =>
      let rootPath := libClean lib (argPath args) in
      match Stat os rootPath with
      | None => Some (Println ("Invalid path: " +:+ libStatError lib rootPath))
      | Some rootInfo =>
          match run os sched
                    (Enter rootPath,
                     {| sig := initial; log := [EvStat rootPath true] |}) with
          | Some (Done root, _) => Some (present lib args re rootInfo root)
          | _ => None
          end
      end
  end.

(** ** Test data *)

(** Joining with a separator: [filepath.Join] on clean, non-empty
    arguments. *)
Definition joinSlash (dir name : string) : string := dir +:+ "/" +:+ name.

Definition leaf (name path : string) : Node :=
  {| Name := name; Children := []; IsDir := false; Path := path |}.

Definition dir (name path : string) (children : list Node) : Node :=
  {| Name := name; Children := map Some children; IsDir := true; Path := path |}.

(** The directory of the repository's tests, in listing order. *)
Definition testTree : Node :=
  dir "tmp" "/tmp"
    [ dir "dir1" "/tmp/dir1"
        [ leaf "file3.txt" "/tmp/dir1/file3.txt";
          dir "subdir1" "/tmp/dir1/subdir1"
            [ leaf "file4.go" "/tmp/dir1/subdir1/file4.go" ] ];
      dir "dir2" "/tmp/dir2" [ leaf "file5.txt" "/tmp/dir2/file5.txt" ];
      leaf "file1.txt" "/tmp/file1.txt";
      leaf "file2.go" "/tmp/file2.go" ].

(** The same directory as a filesystem. *)
Definition testOS : OS :=
  {| Stat := fun p =>
       if String.eqb p "/tmp" then Some (mkInfo "tmp" true)
       else if String.eqb p "/tmp/dir1" then Some (mkInfo "dir1" true)
       else if String.eqb p "/tmp/dir1/file3.txt" then Some (mkInfo "file3.txt" false)
       else if String.eqb p "/tmp/dir1/subdir1" then Some (mkInfo "subdir1" true)
       else if String.eqb p "/tmp/dir1/subdir1/file4.go" then Some (mkInfo "file4.go" false)
       else if String.eqb p "/tmp/dir2" then Some (mkInfo "dir2" true)
       else if String.eqb p "/tmp/dir2/file5.txt" then Some (mkInfo "file5.txt" false)
       else if String.eqb p "/tmp/file1.txt" then Some (mkInfo "file1.txt" false)
       else if String.eqb p "/tmp/file2.go" then Some (mkInfo "file2.go" false)
       else None;
     ReadDir := fun p =>
       if String.eqb p "/tmp" then Some ["dir1"; "dir2"; "file1.txt"; "file2.go"]
       else if String.eqb p "/tmp/dir1" then Some ["file3.txt"; "subdir1"]
       else if String.eqb p "/tmp/dir1/subdir1" then Some ["file4.go"]
       else if String.eqb p "/tmp/dir2" then Some ["file5.txt"]
       else None;
     Join := joinSlash |}.

(** A directory [/r] that lists [a] and [b], where [a] has vanished by
    the time it is statted and [b] is a file. *)
Definition brokenOS : OS :=
  {| Stat := fun p =>
       if String.eqb p "/r" then Some (mkInfo "r" true)
       else if String.eqb p "/r/b" then Some (mkInfo "b" false)
       else None;
     ReadDir := fun p => if String.eqb p "/r" then Some ["a"; "b"] else None;
     Join := joinSlash |}.

(** A directory [/d] whose listing returns [b], [a], [c], three files. *)
Definition unsortedOS : OS :=
  {| Stat := fun p =>
       if String.eqb p "/d" then Some (mkInfo "d" true)
       else if String.eqb p "/d/a" then Some (mkInfo "a" false)
       else if String.eqb p "/d/b" then Some (mkInfo "b" false)
       else if String.eqb p "/d/c" then Some (mkInfo "c" false)
       else None;
     ReadDir := fun p => if String.eqb p "/d" then Some ["b"; "a"; "c"] else None;
     Join := joinSlash |}.

(** The process state at start-up. *)
Definition startup : World := {| sig := initial; log := [] |}.

(** The regex [\.go$], through what [MatchString] answers: the name
    ends in [.go]. *)
Fixpoint endsWith (suffix s : string) : bool :=
  String.eqb s suffix ||
  match s with
  | EmptyString => false
  | String _ s' => endsWith suffix s'
  end.

Definition dotGo : Regexp := endsWith ".go".

(** A directory [/locked] that can be statted and not listed. *)
Definition lockedOS : OS :=
  {| Stat := fun p => if String.eqb p "/locked" then Some (mkInfo "locked" true) else None;
     ReadDir := fun _ => None;
     Join := joinSlash |}.

(** The library with ASCII lower-casing, the regex [\.go$] for every
    pattern but [(], which does not compile, and paths already clean. *)
Definition testLib : Lib :=
  {| libToLower := asciiToLower;
     libCompile := fun pat =>
       if String.eqb pat "(" then inr "error parsing regexp: missing closing ): `(`"
       else inl dotGo;
     libClean := fun p => p;
     libStatError := fun p => "stat " +:+ p +:+ ": no such file or directory" |}.

(** * Properties *)

(** ** The cancellation signal *)

Lemma initial_consistent : consistent initial.
Proof. reflexivity. Qed.

Lemma ResetGlobalState_consistent (s : Signal) : consistent (ResetGlobalState s).
Proof. reflexivity. Qed.

Lemma CloseOnce_consistent (s s' : Signal) :
  consistent s -> CloseOnce s = Some s' -> consistent s' /\ isTripped s' = true.
Proof.
  unfold consistent, CloseOnce, isTripped.
  destruct s as [c o]; simpl; intros ->.
  destruct o; intros [= <-]; auto.
Qed.

Lemma CloseOnce_total (s : Signal) : consistent s -> is_Some (CloseOnce s).
Proof.
  unfold consistent, CloseOnce.
  destruct s as [c o]; simpl; intros ->.
  destruct o; eauto.
Qed.

(** Tripping never opens the signal again. *)
Lemma CloseOnce_monotone (s s' : Signal) :
  CloseOnce s = Some s' -> isTripped s = true -> isTripped s' = true.
Proof.
  unfold CloseOnce, isTripped.
  destruct s as [c o]; simpl.
  destruct o; [intros [= <-]; auto |].
  destruct c; [discriminate | intros [= <-]; auto].
Qed.

Lemma trips_done (n : nat) (s : Signal) :
  onceDone s = true -> trips n s = Some (replicate n s).
Proof.
  intros Hs. induction n as [|n IH]; simpl; [reflexivity |].
  unfold CloseOnce. rewrite Hs, IH. reflexivity.
Qed.

Lemma transitions_tripped (s : Signal) (n : nat) :
  isTripped s = true -> transitions s (replicate n s) = 0.
Proof.
  intros Hs. induction n as [|n IH]; simpl; [reflexivity |].
  rewrite Hs, IH. reflexivity.
Qed.

(** C2. [CloseOnce] (trip) is idempotent.  From every signal state the
    process can be in, a call does not panic and leaves the signal
    tripped; a second call changes nothing; [n+1] calls in a row pass
    through the state of a single call only, and along them the signal
    goes from open to tripped once if it was open and never if it was
    tripped already. *)
Theorem CloseOnce_idempotent (s : Signal) (n : nat) :
  consistent s ->
  exists s1,
    CloseOnce s = Some s1 /\
    isTripped s1 = true /\
    CloseOnce s1 = Some s1 /\
    trips (S n) s = Some (replicate (S n) s1) /\
    transitions s (replicate (S n) s1) = (if isTripped s then 0 else 1).
Proof.
  intros Hs.
  destruct (CloseOnce_total s Hs) as [s1 H1].
  destruct (CloseOnce_consistent s s1 Hs H1) as [Hc Ht].
  assert (Hd : onceDone s1 = true) by (unfold consistent, isTripped in *; congruence).
  exists s1. split; [exact H1 |]. split; [exact Ht |].
  split; [unfold CloseOnce; rewrite Hd; reflexivity |].
  split.
  - cbn [trips]. rewrite H1, (trips_done n s1 Hd). reflexivity.
  - cbn [replicate transitions]. rewrite Ht, (transitions_tripped s1 n Ht).
    destruct (isTripped s); reflexivity.
Qed.

Lemma CloseOnce_idempotent_witness :
  consistent initial /\
  exists s1,
    CloseOnce initial = Some s1 /\
    isTripped s1 = true /\
    CloseOnce s1 = Some s1 /\
    trips 3 initial = Some (replicate 3 s1) /\
    transitions initial (replicate 3 s1) = (if isTripped initial then 0 else 1).
Proof.
  split; [reflexivity |].
  apply (CloseOnce_idempotent initial 2). reflexivity.
Defined.

(** ** Trees *)

(** Induction over a tree through its children slice. *)
Lemma Node_ind (P : Node -> Prop) :
  (forall name cs isDir path,
      Forall (fun c => match c with Some n => P n | None => True end) cs ->
      P (mkNode name cs isDir path)) ->
  forall n, P n.
Proof.
  intros step.
  fix IH 1.
  intros [name cs isDir path]. apply step.
  induction cs as [|[c|] cs IHcs]; constructor; auto.
Qed.

Lemma nonNil_Some (m : Node) (ps : list (option Node)) :
  nonNil (Some m :: ps) = m :: nonNil ps.
Proof. reflexivity. Qed.

Lemma nonNil_map_Some (ms : list Node) : nonNil (map Some ms) = ms.
Proof. induction ms as [|m ms IH]; [reflexivity |]. cbn [map]. rewrite nonNil_Some, IH. reflexivity. Qed.

Lemma wf_Forall (n : Node) :
  wf n <-> Forall (fun c => exists m, c = Some m /\ wf m) (Children n).
Proof.
  destruct n as [name cs isDir path]. cbn [wf Children].
  induction cs as [|[c|] cs IH].
  - split; [intros _; constructor | trivial].
  - rewrite Forall_cons, <- IH. split.
    + intros [Hc Hcs]. eauto.
    + intros [(m & [= <-] & Hm) Hcs]. auto.
  - rewrite Forall_cons. split; [tauto |].
    intros [(m & [=] & _) _].
Qed.

Lemma nodes_eq (n : Node) :
  nodes n = n :: concat (map nodes (nonNil (Children n))).
Proof.
  destruct n as [name cs isDir path]. cbn [nodes Children]. f_equal.
  induction cs as [|[c|] cs IH]; cbn; [reflexivity | f_equal; exact IH | exact IH].
Qed.

Lemma wf_children (n : Node) :
  wf n -> Children n = map Some (nonNil (Children n)) /\ Forall wf (nonNil (Children n)).
Proof.
  rewrite wf_Forall. unfold nonNil.
  induction 1 as [|c cs (m & -> & Hm) _ [IH1 IH2]]; cbn; [auto |].
  split; [f_equal; exact IH1 | constructor; auto].
Qed.

Lemma wf_dir (name path : string) (children : list Node) :
  Forall wf children -> wf (dir name path children).
Proof.
  intros H. rewrite wf_Forall. cbn. rewrite Forall_fmap.
  eapply Forall_impl; [exact H |]. cbn. eauto.
Qed.

Lemma wf_leaf (name path : string) : wf (leaf name path).
Proof. exact I. Qed.

Lemma wf_testTree : wf testTree.
Proof. cbn. tauto. Qed.

(** ** Strings *)

Lemma append_cons (a : ascii) (s t : string) : String a s +:+ t = String a (s +:+ t).
Proof. reflexivity. Qed.

Lemma append_empty (t : string) : "" +:+ t = t.
Proof. reflexivity. Qed.

Lemma HasPrefix_spec (s p : string) :
  HasPrefix s p = true <-> exists rest, s = p +:+ rest.
Proof.
  revert s. induction p as [|b p IH]; intros s; cbn.
  - split; [eauto | trivial].
  - destruct s as [|a s].
    + split; [discriminate | intros [rest [=]]].
    + destruct (Ascii.eqb_spec a b) as [-> | Hne].
      * rewrite IH. split; intros [rest H]; exists rest.
        -- rewrite append_cons. congruence.
        -- rewrite append_cons in H. congruence.
      * split; [discriminate | intros [rest H]].
        rewrite append_cons in H. congruence.
Qed.

(** [Contains s sub] holds exactly when [sub] is a substring of [s]. *)
Lemma Contains_spec (s sub : string) :
  Contains s sub = true <-> exists before after, s = before +:+ sub +:+ after.
Proof.
  induction s as [|a s IH]; cbn [Contains].
  - rewrite orb_false_r, HasPrefix_spec. split.
    + intros [rest H]. exists "", rest. exact H.
    + intros ([|b before] & after & H); [eauto | discriminate].
  - rewrite orb_true_iff, HasPrefix_spec, IH. split.
    + intros [[rest H] | (before & after & H)].
      * exists "", rest. exact H.
      * exists (String a before), after. rewrite append_cons. congruence.
    + intros ([|b before] & after & H).
      * left. eauto.
      * right. exists before, after. rewrite append_cons in H. congruence.
Qed.

Lemma Contains_empty (s : string) : Contains s "" = true.
Proof. apply Contains_spec. exists "", s. reflexivity. Qed.

(** ** SearchDFS *)

Lemma andThen_returned (o1 o2 : list string) (r : Outcome) :
  (o1, Returned) >> (o2, r) = (o1 ++ o2, r).
Proof. reflexivity. Qed.

Lemma SearchNode_eq (ToLower : string -> string) (n : Node) (q : string) :
  SearchNode ToLower n q =
  (if Contains (ToLower (Name n)) (ToLower q) then Println (Path n) else skip) >>
  fold_right (fun c rest =>
                match c with
                | Some child => SearchNode ToLower child q >> rest
                | None => panic
                end) skip (Children n).
Proof.
  destruct n as [name cs isDir path]. reflexivity.
Qed.

Lemma SearchNode_preorder (ToLower : string -> string) (q : string) (n : Node) :
  wf n ->
  SearchNode ToLower n q =
  (map Path (List.filter (fun m => Contains (ToLower (Name m)) (ToLower q)) (nodes n)),
   Returned).
Proof.
  induction n as [name cs isDir path IH] using Node_ind. intros Hwf.
  rewrite SearchNode_eq, nodes_eq.
  apply wf_Forall in Hwf. cbn [Children] in *.
  set (hit := fun m => Contains (ToLower (Name m)) (ToLower q)).
  assert (Hloop :
    fold_right (fun c rest =>
                  match c with
                  | Some child => SearchNode ToLower child q >> rest
                  | None => panic
                  end) skip cs =
    (map Path (List.filter hit (concat (map nodes (nonNil cs)))), Returned)).
  { induction cs as [|c cs IHcs]; [reflexivity |].
    apply Forall_cons in IH as [IHc IH]. apply Forall_cons in Hwf as [(m & -> & Hm) Hwf].
    rewrite nonNil_Some. cbn [fold_right map concat].
    rewrite List.filter_app, map_app, (IHc Hm), (IHcs IH Hwf). reflexivity. }
  rewrite Hloop. cbn [List.filter Name Path].
  fold hit. change (hit (mkNode name cs isDir path)) with (Contains (ToLower name) (ToLower q)).
  destruct (Contains (ToLower name) (ToLower q)); reflexivity.
Qed.

(** C6. On a tree without nil pointers, [SearchDFS] returns after
    printing the path of exactly the nodes whose lower-cased name
    contains the lower-cased query as a substring, in depth-first
    pre-order over all nodes, whether or not an ancestor matched; with
    the empty query it prints the path of every node. *)
Theorem SearchDFS_preorder (ToLower : string -> string) (n : Node) (q : string) :
  wf n ->
  SearchDFS ToLower (Some n) q =
    (map Path (List.filter (fun m => Contains (ToLower (Name m)) (ToLower q)) (nodes n)),
     Returned) /\
  (forall m, Contains (ToLower (Name m)) (ToLower q) = true <->
             exists before after, ToLower (Name m) = before +:+ ToLower q +:+ after) /\
  (ToLower "" = "" -> SearchDFS ToLower (Some n) "" = (map Path (nodes n), Returned)).
Proof.
  intros Hwf. split; [apply SearchNode_preorder; exact Hwf |].
  split; [intros m; apply Contains_spec |].
  intros Hempty. cbn [SearchDFS]. rewrite SearchNode_preorder by exact Hwf.
  rewrite Hempty. f_equal. f_equal.
  induction (nodes n) as [|m ms IH]; cbn; [reflexivity |].
  rewrite Contains_empty, IH. reflexivity.
Qed.

Lemma SearchDFS_preorder_witness :
  wf testTree /\
  SearchDFS asciiToLower (Some testTree) "FILE1" =
    (map Path (List.filter (fun m => Contains (asciiToLower (Name m)) (asciiToLower "FILE1"))
                           (nodes testTree)),
     Returned) /\
  (forall m, Contains (asciiToLower (Name m)) (asciiToLower "FILE1") = true <->
             exists before after,
               asciiToLower (Name m) = before +:+ asciiToLower "FILE1" +:+ after) /\
  (asciiToLower "" = "" ->
   SearchDFS asciiToLower (Some testTree) "" = (map Path (nodes testTree), Returned)).
Proof.
  split; [exact wf_testTree |].
  apply (SearchDFS_preorder asciiToLower testTree "FILE1"). exact wf_testTree.
Defined.

(** The search scenarios of the repository's tests. *)
Example SearchDFS_tests :
  SearchDFS asciiToLower (Some testTree) "FILE1" = (["/tmp/file1.txt"], Returned) /\
  SearchDFS asciiToLower (Some testTree) "nonexistent" = ([], Returned) /\
  SearchDFS asciiToLower (Some testTree) ".txt" =
    (["/tmp/dir1/file3.txt"; "/tmp/dir2/file5.txt"; "/tmp/file1.txt"], Returned) /\
  SearchDFS asciiToLower None "x" = ([], Panicked).
Proof. repeat split; reflexivity. Qed.

(** ** PrintTreeDFS *)

Lemma hasMatch_lookahead (re : Regexp) (child : Node) :
  wf child -> hasMatch re (Children child) = Some (lookahead re child).
Proof.
  intros Hwf. apply wf_Forall in Hwf. unfold lookahead.
  induction Hwf as [|c cs (m & -> & _) _ IH]; [reflexivity |].
  rewrite nonNil_Some. cbn [hasMatch existsb].
  destruct (MatchString re (Name m)); [reflexivity | exact IH].
Qed.

Lemma PrintNode_eq (n : Node) (prefix : string) (regex : option Regexp) (dirsOnly : bool) :
  PrintNode n prefix regex dirsOnly =
  printRange (length (Children n)) prefix regex dirsOnly 0 (Children n).
Proof. destruct n as [name cs isDir path]. reflexivity. Qed.

(** The loop of [PrintTreeDFS], block by block. *)
Lemma PrintNode_blocks (regex : option Regexp) (dirsOnly : bool) (n : Node) :
  wf n ->
  forall prefix,
    PrintNode n prefix regex dirsOnly =
    (concat (imap (block (length (Children n)) prefix regex dirsOnly) (nonNil (Children n))),
     Returned).
Proof.
  induction n as [name cs isDir path IH] using Node_ind. intros Hwf prefix.
  apply wf_Forall in Hwf. rewrite PrintNode_eq. cbn [Children] in *.
  generalize (length cs) as total. intros total.
  cut (forall i, printRange total prefix regex dirsOnly i cs =
                 (concat (imap (fun j => block total prefix regex dirsOnly (i + j)) (nonNil cs)),
                  Returned)).
  { intros H. exact (H 0). }
  induction cs as [|c cs IHcs]; intros i; [reflexivity |].
  apply Forall_cons in IH as [IHc IH]. apply Forall_cons in Hwf as [(m & -> & Hm) Hwf].
  rewrite nonNil_Some. cbn [imap concat printRange].
  fold (printRange total prefix regex dirsOnly).
  rewrite (IHcs IH Hwf (S i)). clear IHcs.
  replace (i + 0) with i by lia.
  assert (Hshift : imap ((fun j => block total prefix regex dirsOnly (i + j)) ∘ S) (nonNil cs) =
                   imap (fun j => block total prefix regex dirsOnly (S i + j)) (nonNil cs)).
  { apply imap_ext. intros j x _. cbn. f_equal. lia. }
  rewrite Hshift. clear Hshift.
  set (rest := concat _).
  unfold block, kept, connector, continuation. cbn [PrintTreeDFS].
  rewrite !(IHc Hm). cbn [fst].
  destruct (i =? total - 1)%nat, dirsOnly, (IsDir m) eqn:Hd; cbn [negb andb orb];
    destruct regex as [re|]; cbn [negb andb orb]; try reflexivity;
    try (destruct (MatchString re (Name m)); cbn [negb andb orb]; try reflexivity;
         rewrite ?(hasMatch_lookahead re m Hm);
         destruct (lookahead re m); reflexivity).
Qed.

Lemma block_nil (total : nat) (prefix : string) (regex : option Regexp) (dirsOnly : bool)
    (i : nat) (child : Node) :
  block total prefix regex dirsOnly i child = [] <-> kept regex dirsOnly child = false.
Proof.
  unfold block. destruct (kept regex dirsOnly child); split; congruence.
Qed.

Lemma kept_nonmatching (re : Regexp) (dirsOnly : bool) (child : Node) :
  MatchString re (Name child) = false ->
  kept (Some re) dirsOnly child = IsDir child && lookahead re child.
Proof.
  intros H. unfold kept. rewrite H.
  destruct dirsOnly, (IsDir child); reflexivity.
Qed.

Lemma lookahead_spec (re : Regexp) (child : Node) :
  lookahead re child = true <->
  exists grand, Some grand ∈ Children child /\ MatchString re (Name grand) = true.
Proof.
  unfold lookahead, nonNil. rewrite existsb_exists. split.
  - intros (g & Hin & Hg). exists g. split; [| exact Hg].
    apply list_elem_of_In, list_elem_of_omap in Hin as (x & Hx & Hid).
    cbn in Hid. subst x. exact Hx.
  - intros (g & Hin & Hg). exists g. split; [| exact Hg].
    apply list_elem_of_In, list_elem_of_omap. exists (Some g). auto.
Qed.

(** The filter looks at the child's own name and flag and at the names
    of its immediate children, at nothing below. *)
Lemma kept_one_level (regex : option Regexp) (dirsOnly : bool) (child child' : Node) :
  Name child' = Name child ->
  IsDir child' = IsDir child ->
  map Name (nonNil (Children child')) = map Name (nonNil (Children child)) ->
  kept regex dirsOnly child' = kept regex dirsOnly child.
Proof.
  intros Hn Hd Hc. unfold kept, lookahead. rewrite Hn, Hd.
  destruct regex as [re|]; [| reflexivity].
  assert (Hmap : forall ms, existsb (fun grand => MatchString re (Name grand)) ms =
                            existsb (MatchString re) (map Name ms)).
  { induction ms as [|m ms IH]; cbn; [reflexivity | rewrite IH; reflexivity]. }
  rewrite !Hmap, Hc. reflexivity.
Qed.

(** C7. With a regex supplied, [PrintTreeDFS] prints its children block
    by block, and a child whose name does not match contributes lines
    exactly when it is a directory and the name of one of its immediate
    children matches; a non-directory child whose name does not match
    contributes nothing.  Only the names of the immediate children
    count: a child with the same name, flag and immediate children's
    names is treated alike whatever lies deeper, and in the test tree
    [file4.go], three levels down, does not bring [dir1] out. *)
Theorem PrintTreeDFS_regex_lookahead (n : Node) (prefix : string) (re : Regexp)
    (dirsOnly : bool) :
  wf n ->
  PrintTreeDFS (Some n) prefix (Some re) dirsOnly =
    (concat (imap (block (length (Children n)) prefix (Some re) dirsOnly)
                  (nonNil (Children n))),
     Returned) /\
  (forall i child,
      nonNil (Children n) !! i = Some child ->
      MatchString re (Name child) = false ->
      (block (length (Children n)) prefix (Some re) dirsOnly i child <> [] <->
       IsDir child = true /\
       exists grand, Some grand ∈ Children child /\ MatchString re (Name grand) = true) /\
      (IsDir child = false ->
       block (length (Children n)) prefix (Some re) dirsOnly i child = []) /\
      (forall child',
          Name child' = Name child ->
          IsDir child' = IsDir child ->
          map Name (nonNil (Children child')) = map Name (nonNil (Children child)) ->
          (block (length (Children n)) prefix (Some re) dirsOnly i child' = [] <->
           block (length (Children n)) prefix (Some re) dirsOnly i child = []))) /\
  PrintTreeDFS (Some testTree) "" (Some (fun s => Contains s "file4")) false =
    ([], Returned).
Proof.
  intros Hwf. split; [apply PrintNode_blocks; exact Hwf |].
  split; [| reflexivity].
  intros i child _ Hno. split; [| split].
  - rewrite block_nil, kept_nonmatching by exact Hno.
    rewrite <- lookahead_spec.
    destruct (IsDir child), (lookahead re child); cbn; intuition congruence.
  - intros Hd. apply block_nil. rewrite kept_nonmatching by exact Hno.
    rewrite Hd. reflexivity.
  - intros child' Hn Hd Hc. rewrite !block_nil.
    rewrite (kept_one_level (Some re) dirsOnly child child' Hn Hd Hc). reflexivity.
Qed.

Lemma PrintTreeDFS_regex_lookahead_witness :
  wf testTree /\
  PrintTreeDFS (Some testTree) "" (Some dotGo) false =
    (concat (imap (block (length (Children testTree)) "" (Some dotGo) false)
                  (nonNil (Children testTree))),
     Returned) /\
  (forall i child,
      nonNil (Children testTree) !! i = Some child ->
      MatchString dotGo (Name child) = false ->
      (block (length (Children testTree)) "" (Some dotGo) false i child <> [] <->
       IsDir child = true /\
       exists grand, Some grand ∈ Children child /\ MatchString dotGo (Name grand) = true) /\
      (IsDir child = false ->
       block (length (Children testTree)) "" (Some dotGo) false i child = []) /\
      (forall child',
          Name child' = Name child ->
          IsDir child' = IsDir child ->
          map Name (nonNil (Children child')) = map Name (nonNil (Children child)) ->
          (block (length (Children testTree)) "" (Some dotGo) false i child' = [] <->
           block (length (Children testTree)) "" (Some dotGo) false i child = []))) /\
  PrintTreeDFS (Some testTree) "" (Some (fun s => Contains s "file4")) false =
    ([], Returned).
Proof.
  split; [exact wf_testTree |].
  apply (PrintTreeDFS_regex_lookahead testTree "" dotGo false). exact wf_testTree.
Defined.

(** C8. [PrintTreeDFS] prints its children block by block; a kept child
    at index [i] of the unfiltered children gets the connector ["└── "]
    and the continuation of four spaces exactly when [i] is the last
    index of the unfiltered children, else ["├── "] and ["│   "]; only a
    directory child is descended into; the node's own name, flag and
    path are not rendered.  In the test tree under [dirsOnly], [dir2] is
    the last line of its level and still gets ["├── "], since the two
    files after it keep their positions. *)
Theorem PrintTreeDFS_last_by_raw_index (n : Node) (prefix : string)
    (regex : option Regexp) (dirsOnly : bool) :
  wf n ->
  PrintTreeDFS (Some n) prefix regex dirsOnly =
    (concat (imap (block (length (Children n)) prefix regex dirsOnly)
                  (nonNil (Children n))),
     Returned) /\
  (forall i child,
      Children n !! i = Some (Some child) ->
      nonNil (Children n) !! i = Some child /\
      (kept regex dirsOnly child = true ->
       let last := (i =? length (Children n) - 1)%nat in
       block (length (Children n)) prefix regex dirsOnly i child =
         (prefix +:+ (if last then "└── " else "├── ") +:+ Name child) ::
         (if IsDir child
          then (PrintTreeDFS (Some child)
                  (prefix +:+ (if last then "    " else "│   ")) regex dirsOnly).1
          else []))) /\
  (forall name isDir path,
      PrintTreeDFS (Some (mkNode name (Children n) isDir path)) prefix regex dirsOnly =
      PrintTreeDFS (Some n) prefix regex dirsOnly) /\
  PrintTreeDFS (Some testTree) "" None true =
    (["├── dir1"; "│   └── subdir1"; "├── dir2"], Returned).
Proof.
  intros Hwf. split; [apply PrintNode_blocks; exact Hwf |].
  split; [| split; [| reflexivity]].
  - intros i child Hi. split.
    + destruct (wf_children n Hwf) as [Hcs _]. rewrite Hcs in Hi.
      rewrite list_lookup_fmap in Hi.
      destruct (nonNil (Children n) !! i) as [m|]; cbn in Hi; congruence.
    + intros Hk. cbn zeta. unfold block. rewrite Hk.
      unfold connector, continuation. reflexivity.
  - intros name isDir path. cbn [PrintTreeDFS]. rewrite !PrintNode_eq. reflexivity.
Qed.

Lemma PrintTreeDFS_last_by_raw_index_witness :
  wf testTree /\
  PrintTreeDFS (Some testTree) "" None true =
    (concat (imap (block (length (Children testTree)) "" None true)
                  (nonNil (Children testTree))),
     Returned) /\
  (forall i child,
      Children testTree !! i = Some (Some child) ->
      nonNil (Children testTree) !! i = Some child /\
      (kept None true child = true ->
       let last := (i =? length (Children testTree) - 1)%nat in
       block (length (Children testTree)) "" None true i child =
         ("" +:+ (if last then "└── " else "├── ") +:+ Name child) ::
         (if IsDir child
          then (PrintTreeDFS (Some child)
                  ("" +:+ (if last then "    " else "│   ")) None true).1
          else []))) /\
  (forall name isDir path,
      PrintTreeDFS (Some (mkNode name (Children testTree) isDir path)) "" None true =
      PrintTreeDFS (Some testTree) "" None true) /\
  PrintTreeDFS (Some testTree) "" None true =
    (["├── dir1"; "│   └── subdir1"; "├── dir2"], Returned).
Proof.
  split; [exact wf_testTree |].
  apply (PrintTreeDFS_last_by_raw_index testTree "" None true). exact wf_testTree.
Defined.

(** C10. Under [dirsOnly] with a regex, a directory child whose own
    name does not match is printed exactly when the name of one of its
    immediate children matches, whether that child is a directory or a
    file, while a file is never printed under [dirsOnly].  So the
    directory [d] is printed because of the file [x.go] in it, which
    itself is not printed, and is not printed without that file. *)
Theorem PrintTreeDFS_dirsOnly_lookahead_sees_files (child : Node) (name path prefix : string)
    (re : Regexp) :
  wf child ->
  IsDir child = true ->
  MatchString re (Name child) = false ->
  ((PrintTreeDFS (Some (dir name path [child])) prefix (Some re) true).1 <> [] <->
   exists grand, Some grand ∈ Children child /\ MatchString re (Name grand) = true) /\
  (forall grand total pre i,
      IsDir grand = false -> block total pre (Some re) true i grand = []) /\
  PrintTreeDFS (Some (dir "r" "/r" [dir "d" "/r/d" [leaf "x.go" "/r/d/x.go"]]))
               "" (Some dotGo) true = (["└── d"], Returned) /\
  PrintTreeDFS (Some (dir "r" "/r" [dir "d" "/r/d" []]))
               "" (Some dotGo) true = ([], Returned).
Proof.
  intros Hwf Hd Hno. split; [| split; [| split; reflexivity]].
  - cbn [PrintTreeDFS]. rewrite PrintNode_blocks by (apply wf_dir; constructor; auto).
    cbn [dir Children map length fst]. rewrite nonNil_Some. cbn [nonNil omap imap concat].
    rewrite app_nil_r, block_nil, kept_nonmatching, Hd, <- lookahead_spec by exact Hno.
    destruct (lookahead re child); cbn; intuition congruence.
  - intros grand total pre i Hg. apply block_nil. unfold kept. rewrite Hg. reflexivity.
Qed.

Lemma PrintTreeDFS_dirsOnly_lookahead_sees_files_witness :
  let child := dir "d" "/r/d" [leaf "x.go" "/r/d/x.go"] in
  wf child /\ IsDir child = true /\ MatchString dotGo (Name child) = false /\
  ((PrintTreeDFS (Some (dir "r" "/r" [child])) "" (Some dotGo) true).1 <> [] <->
   exists grand, Some grand ∈ Children child /\ MatchString dotGo (Name grand) = true) /\
  (forall grand total pre i,
      IsDir grand = false -> block total pre (Some dotGo) true i grand = []) /\
  PrintTreeDFS (Some (dir "r" "/r" [dir "d" "/r/d" [leaf "x.go" "/r/d/x.go"]]))
               "" (Some dotGo) true = (["└── d"], Returned) /\
  PrintTreeDFS (Some (dir "r" "/r" [dir "d" "/r/d" []]))
               "" (Some dotGo) true = ([], Returned).
Proof.
  cbn zeta.
  assert (Hwf : wf (dir "d" "/r/d" [leaf "x.go" "/r/d/x.go"])) by (cbn; tauto).
  split; [exact Hwf |]. split; [reflexivity |]. split; [reflexivity |].
  apply (PrintTreeDFS_dirsOnly_lookahead_sees_files
           (dir "d" "/r/d" [leaf "x.go" "/r/d/x.go"]) "r" "/r" "" dotGo Hwf);
    reflexivity.
Defined.

(** The print scenarios of the repository's tests. *)
Example PrintTreeDFS_tests :
  PrintTreeDFS (Some testTree) "" None false =
    (["├── dir1"; "│   ├── file3.txt"; "│   └── subdir1"; "│       └── file4.go";
      "├── dir2"; "│   └── file5.txt"; "├── file1.txt"; "└── file2.go"], Returned) /\
  PrintTreeDFS (Some testTree) "" (Some dotGo) false = (["└── file2.go"], Returned) /\
  PrintTreeDFS (Some testTree) "" (Some (fun s => Contains s "file3")) false =
    (["├── dir1"; "│   ├── file3.txt"], Returned) /\
  PrintTreeDFS (Some testTree) "" (Some (fun s => Contains s "dir")) true =
    (["├── dir1"; "│   └── subdir1"; "├── dir2"], Returned) /\
  PrintTreeDFS (Some (dir "empty" "/empty" [])) "" None false = ([], Returned) /\
  PrintTreeDFS None "" None false = ([], Panicked).
Proof. repeat split; reflexivity. Qed.

(** ** Runs of the builder *)

Section Builder.

Context (os : OS).

Lemma step_Done (pos : list nat) (r : option Node) (w : World) :
  step os pos (Done r) w = None.
Proof. destruct pos; reflexivity. Qed.

Lemma run_Done (sched : Schedule) (r : option Node) (w : World) (c : Task * World) :
  run os sched (Done r, w) = Some c -> sched = [] /\ c = (Done r, w).
Proof.
  destruct sched as [|pos sched]; cbn.
  - intros [= <-]. auto.
  - rewrite step_Done. discriminate.
Qed.

Lemma run_app (s1 s2 : Schedule) (c : Task * World) :
  run os (s1 ++ s2) c =
  match run os s1 c with
  | Some c' => run os s2 c'
  | None => None
  end.
Proof.
  revert c. induction s1 as [|pos s1 IH]; intros c; cbn; [reflexivity |].
  destruct (step os pos c.1 c.2); [apply IH | reflexivity].
Qed.

(** In a single goroutine only the position [[]] can move. *)
Lemma step_solo (pos : list nat) (t : Task) (w : World) (c : Task * World) :
  solo t = true -> step os pos t w = Some c -> pos = [].
Proof.
  destruct pos as [|i pos]; [reflexivity |].
  destruct t; cbn; discriminate.
Qed.

(** A run from a single goroutine that returns starts with its action. *)
Lemma run_solo (sched : Schedule) (t : Task) (w : World) (r : option Node) (w' : World) :
  solo t = true ->
  run os sched (t, w) = Some (Done r, w') ->
  t = Done r /\ w' = w /\ sched = [] \/
  exists c sched', sched = [] :: sched' /\ step os [] t w = Some c /\
                   run os sched' c = Some (Done r, w').
Proof.
  intros Ht. destruct sched as [|pos sched]; cbn.
  - intros [= -> ->]. left. auto.
  - destruct (step os pos t w) as [c|] eqn:Hstep; [| discriminate].
    intros Hrun. right. apply (step_solo _ _ _ _ Ht) in Hstep as Hpos. subst pos.
    exists c, sched. auto.
Qed.

(** A call that polls the signal tripped returns nil on the spot. *)
Lemma Enter_tripped (path : string) (w : World) :
  isTripped (sig w) = true ->
  step os [] (Enter path) w = Some (Done None, w) /\
  Returns os path w None w /\
  (forall r w', Returns os path w r w' -> r = None /\ w' = w).
Proof.
  intros Ht.
  assert (Hstep : step os [] (Enter path) w = Some (Done None, w))
    by (cbn; rewrite Ht; reflexivity).
  split; [exact Hstep |]. split.
  - exists [[]]. cbn. rewrite Ht. reflexivity.
  - intros r w' [sched Hrun].
    apply run_solo in Hrun as [([=] & _) | (c & sched' & -> & Hc & Hrun)]; [| reflexivity].
    rewrite Hstep in Hc. injection Hc as <-.
    apply run_Done in Hrun as [_ [= -> ->]]. auto.
Qed.

(** C3. When the signal is already tripped as [BuildTreeSafe(path)] is
    called, the call returns nil at its first action, and every run of
    it returns nil and leaves the process state as it was: the signal,
    and the log of filesystem accesses, to which no stat and no listing
    is added. *)
Theorem BuildTreeSafe_tripped (path : string) (w : World) :
  isTripped (sig w) = true ->
  step os [] (Enter path) w = Some (Done None, w) /\
  Returns os path w None w /\
  (forall r w', Returns os path w r w' -> r = None /\ w' = w /\ log w' = log w).
Proof.
  intros Ht. destruct (Enter_tripped path w Ht) as (Hstep & Hret & Hall).
  split; [exact Hstep |]. split; [exact Hret |].
  intros r w' H. destruct (Hall r w' H) as [-> ->]. auto.
Qed.

(** C4. When [path] stats as a non-directory (the signal being open as
    the call polls it), [BuildTreeSafe(path)] returns, under every
    schedule, the node with the stat's name, the path that was statted,
    [IsDir] false and no children, and the log gains the stat of [path]
    and nothing else: no listing is attempted. *)
Theorem BuildTreeSafe_leaf (path : string) (w : World) (info : FileInfo) :
  isTripped (sig w) = false ->
  Stat os path = Some info ->
  fiIsDir info = false ->
  let node := {| Name := fiName info; Children := []; IsDir := false; Path := path |} in
  Returns os path w (Some node) (record w (EvStat path true)) /\
  (forall r w',
      Returns os path w r w' ->
      r = Some node /\ sig w' = sig w /\ log w' = log w ++ [EvStat path true]).
Proof.
  intros Ht Hstat Hdir node.
  assert (H1 : step os [] (Enter path) w = Some (AtStat path, w))
    by (cbn; rewrite Ht; reflexivity).
  assert (H2 : step os [] (AtStat path) w =
               Some (Done (Some node), record w (EvStat path true))).
  { cbn. rewrite Hstat, Hdir. reflexivity. }
  split.
  - exists [[]; []]. cbn [run fst snd]. rewrite H1. cbn [run fst snd]. rewrite H2. reflexivity.
  - intros r w' [sched Hrun].
    apply run_solo in Hrun as [([=] & _) | (c & sched' & -> & Hc & Hrun)]; [| reflexivity].
    rewrite H1 in Hc. injection Hc as <-.
    apply run_solo in Hrun as [([=] & _) | (c & sched'' & -> & Hc & Hrun)]; [| reflexivity].
    rewrite H2 in Hc. injection Hc as <-.
    apply run_Done in Hrun as [_ [= -> ->]]. auto.
Qed.

(** ** The builder's invariant *)

Lemma All2_Forall2 {A B : Type} (P : A -> B -> Prop) (xs : list A) (ys : list B) :
  All2 P xs ys <-> Forall2 P xs ys.
Proof.
  revert xs. induction ys as [|y ys IH]; intros [|x xs]; cbn.
  - split; [constructor | trivial].
  - split; [tauto | inversion 1].
  - split; [tauto | inversion 1].
  - rewrite IH. split.
    + intros [? ?]. constructor; assumption.
    + inversion 1; subst. auto.
Qed.

(** Lines 70-74 keep the non-nil slots, in slot order. *)
Lemma assemble_Children (node : Node) (childNodes : list (option Node)) :
  Children (assemble node childNodes) = Children node ++ map Some (nonNil childNodes).
Proof.
  cbn [assemble Children]. generalize (Children node) as acc.
  induction childNodes as [|[c|] cs IH]; intros acc; cbn [fold_left].
  - cbn. rewrite app_nil_r. reflexivity.
  - rewrite IH, nonNil_Some. cbn [map]. rewrite <- app_assoc. reflexivity.
  - rewrite IH. reflexivity.
Qed.

Lemma assemble_eq (node : Node) (childNodes : list (option Node)) :
  assemble node childNodes =
  {| Name := Name node; Children := Children node ++ map Some (nonNil childNodes);
     IsDir := IsDir node; Path := Path node |}.
Proof.
  rewrite <- assemble_Children. reflexivity.
Qed.

Lemma mapM_slot (kids : list Task) (childNodes : list (option Node)) :
  mapM slot kids = Some childNodes <-> kids = map Done childNodes.
Proof.
  rewrite mapM_Some. split.
  - induction 1 as [|k r kids rs Hk _ IH]; [reflexivity |].
    destruct k; try discriminate. cbn in Hk. injection Hk as ->.
    cbn [map]. f_equal. exact IH.
  - intros ->. induction childNodes; constructor; auto.
Qed.

Lemma Built_eq (path : string) (n : Node) :
  Built os path n <->
  Path n = path /\
  Stat os path = Some {| fiName := Name n; fiIsDir := IsDir n |} /\
  if IsDir n then
    exists entries chosen,
      ReadDir os path = Some entries /\
      sublist chosen entries /\
      All2 (fun e c => match c with
                       | Some child => Built os (Join os path e) child
                       | None => False
                       end) chosen (Children n)
  else Children n = [].
Proof. destruct n as [name cs isDir p]. reflexivity. Qed.

(** The slots of finished goroutines that are good for the listed
    entries make the children of a built directory. *)
Lemma Built_children (path : string) (entries : list string) (slots : list (option Node)) :
  Forall2 (fun e s => match s with
                      | Some c => Built os (Join os path e) c
                      | None => True
                      end) entries slots ->
  exists chosen,
    sublist chosen entries /\
    All2 (fun e c => match c with
                     | Some child => Built os (Join os path e) child
                     | None => False
                     end) chosen (map Some (nonNil slots)).
Proof.
  induction 1 as [|e s entries slots Hs _ (chosen & Hsub & Hall)].
  - exists []. split; [constructor | exact I].
  - destruct s as [c|].
    + exists (e :: chosen). split; [constructor; exact Hsub |].
      rewrite nonNil_Some. cbn [map All2]. auto.
    + exists chosen. split; [constructor; exact Hsub | exact Hall].
Qed.

Lemma Good_slots (path : string) (entries : list string) (slots : list (option Node)) :
  Forall2 (fun e k => Good os (Join os path e) k) entries (map Done slots) ->
  Forall2 (fun e s => match s with
                      | Some c => Built os (Join os path e) c
                      | None => True
                      end) entries slots.
Proof.
  rewrite Forall2_fmap_r. intros H. eapply Forall2_impl; [exact H |].
  intros e [c|]; cbn; auto.
Qed.

(** Every action keeps the invariant. *)
Lemma step_Good (pos : list nat) :
  forall (path : string) (t : Task) (w : World) (t' : Task) (w' : World),
    Good os path t -> step os pos t w = Some (t', w') -> Good os path t'.
Proof.
  induction pos as [|i pos IH]; intros path t w t' w' Hgood Hstep.
  - destruct t as [parent name | p | p | | node p | | node kids | r]; cbn in Hstep.
    + destruct (isTripped (sig w)); injection Hstep as <- <-; cbn; auto.
    + destruct (isTripped (sig w)); injection Hstep as <- <-; cbn; auto.
    + cbn in Hgood. destruct Hgood.
      destruct (Stat os path) as [[name isDir]|] eqn:Hstat.
      * destruct isDir; cbn in Hstep; injection Hstep as <- <-; cbn; auto.
      * injection Hstep as <- <-. exact I.
    + destruct (trip w); [| discriminate]. injection Hstep as <- <-. exact I.
    + cbn in Hgood. destruct Hgood as (<- & Hnode & Hstat).
      destruct (ReadDir os path) as [entries|] eqn:Hread.
      * injection Hstep as <- <-. cbn [Good].
        split; [exact Hnode |]. split; [exact Hstat |].
        exists entries. split; [exact Hread |].
        apply All2_Forall2, Forall2_fmap_r, Forall_Forall2_diag, Forall_forall.
        intros e _. reflexivity.
      * injection Hstep as <- <-. exact I.
    + destruct (trip w); [| discriminate]. injection Hstep as <- <-. exact I.
    + destruct (mapM slot kids) as [childNodes|] eqn:Hslots; [| discriminate].
      injection Hstep as <- <-. apply mapM_slot in Hslots. subst kids.
      cbn [Good] in Hgood. destruct Hgood as (Hnode & Hstat & entries & Hread & Hkids).
      apply All2_Forall2, Good_slots, Built_children in Hkids as (chosen & Hsub & Hall).
      cbn [Good]. rewrite Built_eq, assemble_Children.
      rewrite Hnode. cbn [assemble Name IsDir Path Children app].
      split; [reflexivity |]. split; [exact Hstat |].
      exists entries, chosen. auto.
    + discriminate.
  - destruct t as [| | | | | | node kids |]; try discriminate. cbn in Hstep.
    destruct (kids !! i) as [kid|] eqn:Hkid; [| discriminate].
    destruct (step os pos kid w) as [[kid' w'']|] eqn:Hkidstep; [| discriminate].
    injection Hstep as <- <-.
    cbn [Good] in Hgood |- *. destruct Hgood as (Hnode & Hstat & entries & Hread & Hkids).
    split; [exact Hnode |]. split; [exact Hstat |].
    exists entries. split; [exact Hread |].
    apply All2_Forall2 in Hkids. apply All2_Forall2.
    destruct (Forall2_lookup_r _ _ _ _ _ Hkids Hkid) as (e & He & Hgk).
    rewrite <- (list_insert_id entries i e He).
    apply Forall2_insert; [exact Hkids |].
    exact (IH _ _ _ _ _ Hgk Hkidstep).
Qed.

Lemma run_Good (sched : Schedule) :
  forall (path : string) (c c' : Task * World),
    Good os path c.1 -> run os sched c = Some c' -> Good os path c'.1.
Proof.
  induction sched as [|pos sched IH]; intros path c c' Hgood; cbn.
  - intros [= <-]. exact Hgood.
  - destruct (step os pos c.1 c.2) as [[t1 w1]|] eqn:Hstep; [| discriminate].
    apply IH. exact (step_Good _ _ _ _ _ _ Hgood Hstep).
Qed.

(** Whatever [BuildTreeSafe(path)] returns is nil or built from [path]. *)
Lemma Returns_Built (path : string) (w : World) (n : Node) (w' : World) :
  Returns os path w (Some n) w' -> Built os path n.
Proof.
  intros [sched Hrun].
  exact (run_Good sched path (Enter path, w) _ eq_refl Hrun).
Qed.

(** ** Where a call returns from *)

(** A waiting task returns by assembling the slots of its goroutines,
    once all of them have returned. *)
Lemma run_Wait (sched : Schedule) :
  forall (node : Node) (kids : list Task) (w : World) (r : option Node) (w' : World),
    run os sched (Wait node kids, w) = Some (Done r, w') ->
    exists sched0 slots,
      sched = sched0 ++ [[]] /\
      run os sched0 (Wait node kids, w) = Some (Wait node (map Done slots), w') /\
      r = Some (assemble node slots).
Proof.
  induction sched as [|pos sched IH]; intros node kids w r w'; [discriminate |].
  cbn [run fst snd]. destruct pos as [|i pos].
  - cbn [step]. destruct (mapM slot kids) as [slots|] eqn:Hslots; [| discriminate].
    intros Hrun. apply run_Done in Hrun as [-> [= -> ->]].
    apply mapM_slot in Hslots. subst kids.
    exists [], slots. auto.
  - cbn [step]. destruct (kids !! i) as [kid|] eqn:Hkid; [| discriminate].
    destruct (step os pos kid w) as [[kid' w1]|] eqn:Hstep; [| discriminate].
    intros Hrun. apply IH in Hrun as (sched0 & slots & -> & Hrun & ->).
    exists ((i :: pos) :: sched0), slots. split; [reflexivity |]. split; [| reflexivity].
    cbn [run fst snd step]. rewrite Hkid, Hstep. exact Hrun.
Qed.

(** From the call on: the result is nil exactly when the signal is
    tripped at the poll, or the stat fails, or the listing fails. *)
Lemma run_Enter (sched : Schedule) (path : string) (w : World) (r : option Node) (w' : World) :
  run os sched (Enter path, w) = Some (Done r, w') ->
  (isTripped (sig w) = true /\ r = None /\ w' = w) \/
  (isTripped (sig w) = false /\ Stat os path = None /\ r = None) \/
  (exists info,
      isTripped (sig w) = false /\ Stat os path = Some info /\ fiIsDir info = false /\
      r = Some {| Name := fiName info; Children := []; IsDir := false; Path := path |}) \/
  (exists info,
      isTripped (sig w) = false /\ Stat os path = Some info /\ fiIsDir info = true /\
      ReadDir os path = None /\ r = None) \/
  (exists info entries sched0 slots,
      isTripped (sig w) = false /\ Stat os path = Some info /\ fiIsDir info = true /\
      ReadDir os path = Some entries /\
      sched = sched0 ++ [[]] /\
      run os sched0 (Enter path, w) =
        Some (Wait {| Name := fiName info; Children := []; IsDir := true; Path := path |}
                   (map Done slots), w') /\
      r = Some {| Name := fiName info; Children := map Some (nonNil slots);
                  IsDir := true; Path := path |}).
Proof.
  intros Hrun.
  apply run_solo in Hrun as [([=] & _) | (c & s1 & -> & Hc & Hrun)]; [| reflexivity].
  cbn [step] in Hc. destruct (isTripped (sig w)) eqn:Ht; injection Hc as <-.
  { apply run_Done in Hrun as [_ [= -> ->]]. left. auto. }
  right.
  apply run_solo in Hrun as [([=] & _) | (c & s2 & -> & Hc & Hrun)]; [| reflexivity].
  cbn [step] in Hc. destruct (Stat os path) as [info|] eqn:Hstat.
  2: { injection Hc as <-. left.
       apply run_solo in Hrun as [([=] & _) | (c & s3 & -> & Hc & Hrun)]; [| reflexivity].
       cbn [step] in Hc. destruct (trip _); [| discriminate]. injection Hc as <-.
       apply run_Done in Hrun as [_ [= -> ->]]. auto. }
  right. destruct (fiIsDir info) eqn:Hdir; cbn [negb] in Hc; injection Hc as <-.
  2: { left. exists info. apply run_Done in Hrun as [_ [= -> ->]]. auto. }
  right.
  apply run_solo in Hrun as [([=] & _) | (c & s3 & -> & Hc & Hrun)]; [| reflexivity].
  cbn [step] in Hc. destruct (ReadDir os path) as [entries|] eqn:Hread; injection Hc as <-.
  2: { left. exists info.
       apply run_solo in Hrun as [([=] & _) | (c & s4 & -> & Hc & Hrun)]; [| reflexivity].
       cbn [step] in Hc. destruct (trip _); [| discriminate]. injection Hc as <-.
       apply run_Done in Hrun as [_ [= -> ->]]. auto. }
  right. apply run_Wait in Hrun as (sched0 & slots & -> & Hrun & ->).
  exists info, entries, ([] :: [] :: [] :: sched0), slots.
  repeat (split; [first [reflexivity | assumption] |]). split.
  - cbn [run fst snd step]. rewrite Ht. cbn [run fst snd step]. rewrite Hstat, Hdir.
    cbn [negb run fst snd step]. rewrite Hread. exact Hrun.
  - rewrite assemble_eq. reflexivity.
Qed.

(** ** What an action does to the shared state *)

Lemma trip_inv (w w' : World) :
  trip w = Some w' -> CloseOnce (sig w) = Some (sig w') /\ log w' = log w.
Proof.
  unfold trip. destruct (CloseOnce (sig w)); [| discriminate].
  intros [= <-]. auto.
Qed.

(** The signal is monotone along a build: no action opens it again. *)
Lemma step_monotone (pos : list nat) :
  forall (t : Task) (w : World) (t' : Task) (w' : World),
    step os pos t w = Some (t', w') ->
    isTripped (sig w) = true -> isTripped (sig w') = true.
Proof.
  induction pos as [|i pos IH]; intros t w t' w' Hstep Ht.
  - destruct t as [parent name | p | p | | node p | | node kids | r]; cbn in Hstep.
    + rewrite Ht in Hstep. injection Hstep as <- <-. exact Ht.
    + rewrite Ht in Hstep. injection Hstep as <- <-. exact Ht.
    + destruct (Stat os p) as [info|]; [destruct (fiIsDir info); cbn in Hstep |];
        injection Hstep as <- <-; exact Ht.
    + destruct (trip w) as [w1|] eqn:Htrip; [| discriminate].
      injection Hstep as <- <-. apply trip_inv in Htrip as [Hs _].
      exact (CloseOnce_monotone _ _ Hs Ht).
    + destruct (ReadDir os p); injection Hstep as <- <-; exact Ht.
    + destruct (trip w) as [w1|] eqn:Htrip; [| discriminate].
      injection Hstep as <- <-. apply trip_inv in Htrip as [Hs _].
      exact (CloseOnce_monotone _ _ Hs Ht).
    + destruct (mapM slot kids); [| discriminate]. injection Hstep as <- <-. exact Ht.
    + discriminate.
  - destruct t; try discriminate. cbn in Hstep.
    destruct (kids !! i) as [kid|]; [| discriminate].
    destruct (step os pos kid w) as [[kid' w'']|] eqn:Hkid; [| discriminate].
    injection Hstep as <- <-. eauto.
Qed.

Lemma run_monotone (sched : Schedule) :
  forall (c c' : Task * World),
    run os sched c = Some c' ->
    isTripped (sig c.2) = true -> isTripped (sig c'.2) = true.
Proof.
  induction sched as [|pos sched IH]; intros c c'; cbn.
  - intros [= <-]. auto.
  - destruct (step os pos c.1 c.2) as [[t1 w1]|] eqn:Hstep; [| discriminate].
    intros Hrun Ht. apply (IH _ _ Hrun). cbn. eapply step_monotone; eauto.
Qed.

Lemma existsb_pending_Done (slots : list (option Node)) :
  existsb pending (map Done slots) = false.
Proof. induction slots; auto. Qed.

Lemma existsb_insert_new {A : Type} (f : A -> bool) (l : list A) (i : nat) (x : A) :
  i < length l -> f x = true -> existsb f (<[i:=x]> l) = true.
Proof.
  intros Hi Hx. apply existsb_exists. exists x. split; [| exact Hx].
  apply list_elem_of_In, list_elem_of_lookup. exists i.
  apply list_lookup_insert_eq. exact Hi.
Qed.

Lemma existsb_insert_old {A : Type} (f : A -> bool) (l : list A) (i : nat) (x y : A) :
  l !! i = Some y ->
  existsb f l = true ->
  existsb f (<[i:=x]> l) = true \/ f y = true.
Proof.
  intros Hi. rewrite !existsb_exists. intros (z & Hz & Hfz).
  apply list_elem_of_In, list_elem_of_lookup in Hz as [j Hj].
  destruct (decide (i = j)) as [-> | Hne].
  - right. congruence.
  - left. exists z. split; [| exact Hfz].
    apply list_elem_of_In, list_elem_of_lookup. exists j.
    rewrite list_lookup_insert_ne by exact Hne. exact Hj.
Qed.

(** An action keeps the signal consistent; a failure it logs leaves a
    goroutine on its way to [CloseOnce]; and such a goroutine goes away
    only by tripping the signal. *)
Lemma step_alarm (pos : list nat) :
  forall (t : Task) (w : World) (t' : Task) (w' : World),
    consistent (sig w) ->
    step os pos t w = Some (t', w') ->
    consistent (sig w') /\
    exists new,
      log w' = log w ++ new /\
      (existsb failed new = true -> pending t' = true) /\
      (pending t = true -> pending t' = true \/ isTripped (sig w') = true).
Proof.
  induction pos as [|i pos IH]; intros t w t' w' Hc Hstep.
  - destruct t as [parent name | p | p | | node p | | node kids | r]; cbn in Hstep.
    + destruct (isTripped (sig w)); injection Hstep as <- <-;
        (split; [exact Hc |]); exists []; rewrite app_nil_r; cbn; intuition congruence.
    + destruct (isTripped (sig w)); injection Hstep as <- <-;
        (split; [exact Hc |]); exists []; rewrite app_nil_r; cbn; intuition congruence.
    + destruct (Stat os p) as [info|].
      * destruct (fiIsDir info); cbn in Hstep; injection Hstep as <- <-;
          (split; [exact Hc |]); exists [EvStat p true]; cbn; intuition congruence.
      * injection Hstep as <- <-.
        split; [exact Hc |]. exists [EvStat p false]. cbn; intuition congruence.
    + destruct (trip w) as [w1|] eqn:Htrip; [| discriminate].
      injection Hstep as <- <-. apply trip_inv in Htrip as [Hs Hlog].
      destruct (CloseOnce_consistent _ _ Hc Hs) as [Hc1 Ht1].
      split; [exact Hc1 |]. exists []. rewrite app_nil_r. cbn; intuition congruence.
    + destruct (ReadDir os p) as [entries|].
      * injection Hstep as <- <-.
        split; [exact Hc |]. exists [EvReadDir p true]. cbn; intuition congruence.
      * injection Hstep as <- <-.
        split; [exact Hc |]. exists [EvReadDir p false]. cbn; intuition congruence.
    + destruct (trip w) as [w1|] eqn:Htrip; [| discriminate].
      injection Hstep as <- <-. apply trip_inv in Htrip as [Hs Hlog].
      destruct (CloseOnce_consistent _ _ Hc Hs) as [Hc1 Ht1].
      split; [exact Hc1 |]. exists []. rewrite app_nil_r. cbn; intuition congruence.
    + destruct (mapM slot kids) as [slots|] eqn:Hslots; [| discriminate].
      injection Hstep as <- <-. apply mapM_slot in Hslots. subst kids.
      split; [exact Hc |]. exists []. rewrite app_nil_r. cbn [pending existsb].
      rewrite existsb_pending_Done. intuition congruence.
    + discriminate.
  - destruct t as [| | | | | | node kids |]; try discriminate. cbn in Hstep.
    destruct (kids !! i) as [kid|] eqn:Hkid; [| discriminate].
    destruct (step os pos kid w) as [[kid' w'']|] eqn:Hkidstep; [| discriminate].
    injection Hstep as <- <-.
    destruct (IH _ _ _ _ Hc Hkidstep) as (Hc' & new & Hlog & Hnew & Hold).
    split; [exact Hc' |]. exists new. split; [exact Hlog |]. cbn [pending]. split.
    + intros Hf. apply existsb_insert_new; [| auto].
      apply lookup_lt_Some in Hkid. exact Hkid.
    + intros Hp.
      destruct (existsb_insert_old pending kids i kid' kid Hkid Hp) as [H | H]; [auto |].
      destruct (Hold H) as [H' | H']; [| auto].
      left. apply existsb_insert_new; [| exact H'].
      apply lookup_lt_Some in Hkid. exact Hkid.
Qed.

Lemma run_alarm (sched : Schedule) :
  forall (c c' : Task * World),
    consistent (sig c.2) ->
    run os sched c = Some c' ->
    consistent (sig c'.2) /\
    exists new,
      log c'.2 = log c.2 ++ new /\
      (existsb failed new = true \/ pending c.1 = true ->
       pending c'.1 = true \/ isTripped (sig c'.2) = true).
Proof.
  induction sched as [|pos sched IH]; intros c c' Hc; cbn.
  - intros [= <-]. split; [exact Hc |]. exists []. rewrite app_nil_r.
    split; [reflexivity |]. cbn. intros [[=] | H]; auto.
  - destruct (step os pos c.1 c.2) as [[t1 w1]|] eqn:Hstep; [| discriminate].
    intros Hrun.
    destruct (step_alarm _ _ _ _ _ Hc Hstep) as (Hc1 & new1 & Hlog1 & Hnew1 & Hold1).
    destruct (IH (t1, w1) c' Hc1 Hrun) as (Hc' & new2 & Hlog2 & Hnew2).
    split; [exact Hc' |]. exists (new1 ++ new2). cbn [fst snd] in *.
    split; [rewrite Hlog2, Hlog1, app_assoc; reflexivity |].
    rewrite existsb_app, orb_true_iff.
    intros [[H | H] | H]; auto.
    destruct (Hold1 H) as [H' | H']; [auto |].
    right. exact (run_monotone sched (t1, w1) c' Hrun H').
Qed.

(** ** Termination *)

(** Induction over a task tree through the goroutines it waits for. *)
Lemma Task_ind (P : Task -> Prop) :
  (forall parent name, P (Go parent name)) ->
  (forall p, P (Enter p)) ->
  (forall p, P (AtStat p)) ->
  P StatFailed ->
  (forall node p, P (AtReadDir node p)) ->
  P ReadDirFailed ->
  (forall node kids, Forall P kids -> P (Wait node kids)) ->
  (forall r, P (Done r)) ->
  forall t, P t.
Proof.
  intros HGo HEnter HStat HSF HRead HRF HWait HDone.
  fix IH 1.
  intros [parent name | p | p | | node p | | node kids | r];
    [apply HGo | apply HEnter | apply HStat | exact HSF | apply HRead | exact HRF
    | | apply HDone].
  apply HWait. induction kids as [|k kids IHkids]; constructor; [apply IH | exact IHkids].
Qed.

Lemma next_None (t : Task) : next t = None <-> exists r, t = Done r.
Proof.
  destruct t; cbn; split; try discriminate; eauto; intros [r' [=]].
Qed.

(** The position found in a waiting task: [[]] when every goroutine has
    returned, else the way into the leftmost one that has not. *)
Lemma next_Wait (node : Node) (kids : list Task) :
  (exists slots, kids = map Done slots /\ next (Wait node kids) = Some []) \/
  (exists i kid pos,
      kids !! i = Some kid /\ next kid = Some pos /\
      next (Wait node kids) = Some (i :: pos)).
Proof.
  cbn [next].
  cut (forall j,
          (exists slots, kids = map Done slots /\
             (fix first (i : nat) (ks : list Task) : list nat :=
                match ks with
                | [] => []
                | k :: ks' => match next k with
                              | Some pos => i :: pos
                              | None => first (S i) ks'
                              end
                end) j kids = []) \/
          (exists i kid pos,
              kids !! i = Some kid /\ next kid = Some pos /\
              (fix first (i : nat) (ks : list Task) : list nat :=
                 match ks with
                 | [] => []
                 | k :: ks' => match next k with
                               | Some pos => i :: pos
                               | None => first (S i) ks'
                               end
                 end) j kids = (j + i) :: pos)).
  { intros H. destruct (H 0) as [(slots & -> & ->) | (i & kid & pos & Hi & Hk & ->)].
    - left. eauto.
    - right. exists i, kid, pos. auto. }
  induction kids as [|k kids IH]; intros j.
  - left. exists []. auto.
  - destruct (next k) as [pos|] eqn:Hk.
    + right. exists 0, k, pos. rewrite Nat.add_0_r. auto.
    + apply next_None in Hk as [r ->].
      destruct (IH (S j)) as [(slots & -> & Hf) | (i & kid & pos & Hi & Hkid & Hf)].
      * left. exists (r :: slots). auto.
      * right. exists (S i), kid, pos. rewrite Hf.
        replace (j + S i) with (S j + i) by lia. auto.
Qed.

(** Progress: while the signal is consistent, the goroutine found by
    [next] can take its action. *)
Lemma next_step (t : Task) :
  forall (w : World) (pos : list nat),
    consistent (sig w) -> next t = Some pos -> is_Some (step os pos t w).
Proof.
  induction t as [parent name | p | p | | node p | | node kids IH | r] using Task_ind;
    intros w pos Hc Hnext.
  - injection Hnext as <-. cbn. destruct (isTripped (sig w)); eauto.
  - injection Hnext as <-. cbn. destruct (isTripped (sig w)); eauto.
  - injection Hnext as <-. cbn.
    destruct (Stat os p) as [info|]; [destruct (fiIsDir info) |]; cbn; eauto.
  - injection Hnext as <-. cbn. unfold trip.
    destruct (CloseOnce_total _ Hc) as [s ->]. eauto.
  - injection Hnext as <-. cbn. destruct (ReadDir os p); eauto.
  - injection Hnext as <-. cbn. unfold trip.
    destruct (CloseOnce_total _ Hc) as [s ->]. eauto.
  - destruct (next_Wait node kids) as [(slots & -> & Hn) | (i & kid & pos' & Hi & Hk & Hn)];
      rewrite Hn in Hnext; injection Hnext as <-.
    + cbn [step]. rewrite (proj2 (mapM_slot _ slots) eq_refl). eauto.
    + cbn [step]. rewrite Hi.
      rewrite Forall_lookup in IH.
      destruct (IH i kid Hi w pos' Hc Hk) as [[kid' w'] ->]. eauto.
  - discriminate.
Qed.

Lemma sum_list_with_insert {A : Type} (f : A -> nat) (l : list A) (i : nat) (x y : A) :
  l !! i = Some x -> f y < f x ->
  sum_list_with f (<[i:=y]> l) < sum_list_with f l.
Proof.
  revert i. induction l as [|z l IH]; intros [|i]; cbn; try discriminate.
  - intros [= ->] H. lia.
  - intros Hi H. apply Nat.add_lt_mono_l. exact (IH i Hi H).
Qed.

(** Every action makes the weight of a fitting task tree smaller. *)
Lemma step_weight (pos : list nat) :
  forall (d : nat) (t : Task) (w : World) (t' : Task) (w' : World),
    fitsTask os d t ->
    step os pos t w = Some (t', w') ->
    fitsTask os d t' /\ weight os d t' < weight os d t.
Proof.
  induction pos as [|i pos IH]; intros d t w t' w' Hfit Hstep.
  - destruct t as [parent name | p | p | | node p | | node kids | r]; cbn in Hstep.
    + destruct (isTripped (sig w)); injection Hstep as <- <-;
        destruct d; cbn in *; (split; [auto | lia]).
    + destruct (isTripped (sig w)); injection Hstep as <- <-;
        destruct d; cbn in *; (split; [auto | lia]).
    + destruct d as [|d]; cbn [fitsTask fits costStat weight] in *;
        destruct (Stat os p) as [info|];
        try (destruct (fiIsDir info)); cbn in Hstep;
        try discriminate; injection Hstep as <- <-; cbn [fitsTask weight costStat];
        (split; [| lia]); try exact I.
      destruct (ReadDir os p); auto.
    + destruct (trip w); [| discriminate]. injection Hstep as <- <-.
      destruct d; cbn; (split; [auto | lia]).
    + destruct d as [|d]; [destruct Hfit |]. cbn [fitsTask weight] in *. unfold costRead.
      destruct (ReadDir os p) as [entries|]; injection Hstep as <- <-;
        cbn [fitsTask weight]; [| split; [exact I | lia]].
      split.
      * apply Forall_fmap, Forall_forall. intros e He.
        rewrite forallb_forall in Hfit. apply list_elem_of_In, Hfit in He.
        destruct d; exact He.
      * assert (Hsum : sum_list_with (weight os d) (map (Go p) entries) =
                       sum_list_with (fun e => 2 + costStat os d (Join os p e)) entries).
        { clear. induction entries as [|e es IHes]; cbn [map sum_list_with]; [reflexivity |].
          rewrite IHes. destruct d; reflexivity. }
        rewrite Hsum. lia.
    + destruct (trip w); [| discriminate]. injection Hstep as <- <-.
      destruct d; cbn; (split; [auto | lia]).
    + destruct (mapM slot kids); [| discriminate]. injection Hstep as <- <-.
      destruct d as [|d]; [destruct Hfit |]. cbn. split; [auto | lia].
    + discriminate.
  - destruct t as [| | | | | | node kids |]; try discriminate. cbn in Hstep.
    destruct (kids !! i) as [kid|] eqn:Hkid; [| discriminate].
    destruct (step os pos kid w) as [[kid' w'']|] eqn:Hkidstep; [| discriminate].
    injection Hstep as <- <-.
    destruct d as [|d]; [destruct Hfit |]. cbn [fitsTask weight] in *.
    assert (Hk : fitsTask os d kid) by (rewrite Forall_lookup in Hfit; eauto).
    destruct (IH _ _ _ _ _ Hk Hkidstep) as [Hk' Hlt].
    split; [apply Forall_insert; assumption |].
    pose proof (sum_list_with_insert (weight os d) kids i kid kid' Hkid Hlt). lia.
Qed.

Lemma run_weight (sched : Schedule) :
  forall (d : nat) (c c' : Task * World),
    fitsTask os d c.1 ->
    run os sched c = Some c' ->
    fitsTask os d c'.1 /\ length sched + weight os d c'.1 <= weight os d c.1.
Proof.
  induction sched as [|pos sched IH]; intros d c c' Hfit; cbn [run].
  - intros [= <-]. split; [exact Hfit | cbn; lia].
  - destruct (step os pos c.1 c.2) as [[t1 w1]|] eqn:Hstep; [| discriminate].
    intros Hrun. destruct (step_weight _ _ _ _ _ _ Hfit Hstep) as [Hfit1 Hlt].
    destruct (IH d (t1, w1) c' Hfit1 Hrun) as [Hfit' Hle].
    split; [exact Hfit' |]. cbn [length fst] in *. lia.
Qed.

Lemma run_consistent (sched : Schedule) (c c' : Task * World) :
  consistent (sig c.2) -> run os sched c = Some c' -> consistent (sig c'.2).
Proof. intros Hc Hrun. exact (proj1 (run_alarm sched c c' Hc Hrun)). Qed.

(** The in-order execution is one of the runs. *)
Lemma exec_run (fuel : nat) :
  forall (c c' : Task * World),
    exec os fuel c = Some c' -> exists sched, run os sched c = Some c'.
Proof.
  induction fuel as [|fuel IH]; intros c c'; cbn [exec].
  - intros [= <-]. exists []. reflexivity.
  - destruct (next c.1) as [pos|]; [| intros [= <-]; exists []; reflexivity].
    destruct (step os pos c.1 c.2) as [c1|] eqn:Hstep; [| discriminate].
    intros Hexec. destruct (IH _ _ Hexec) as [sched Hrun].
    exists (pos :: sched). cbn [run]. rewrite Hstep. exact Hrun.
Qed.

Lemma weight_0 (d : nat) (t : Task) :
  fitsTask os d t -> weight os d t = 0 -> exists r, t = Done r.
Proof.
  destruct t, d; cbn; try discriminate; try tauto; eauto.
Qed.

(** With the weight as fuel, the in-order execution of a fitting task
    tree returns. *)
Lemma exec_finishes (fuel : nat) :
  forall (d : nat) (c : Task * World),
    fitsTask os d c.1 ->
    consistent (sig c.2) ->
    weight os d c.1 <= fuel ->
    exists r w', exec os fuel c = Some (Done r, w').
Proof.
  induction fuel as [|fuel IH]; intros d [t w] Hfit Hc Hle; cbn [fst snd exec] in *.
  - destruct (weight_0 d t Hfit) as [r ->]; [lia |]. eauto.
  - destruct (next t) as [pos|] eqn:Hnext.
    + destruct (next_step t w pos Hc Hnext) as [[t1 w1] Hstep]. rewrite Hstep.
      destruct (step_weight _ _ _ _ _ _ Hfit Hstep) as [Hfit1 Hlt].
      destruct (step_alarm _ _ _ _ _ Hc Hstep) as [Hc1 _].
      apply (IH d (t1, w1)); cbn [fst snd]; [assumption | assumption | lia].
    + apply next_None in Hnext as [r ->]. eauto.
Qed.

(** On a finite subtree under a consistent signal, [BuildTreeSafe]
    returns: some run returns, no run is longer than the bound, and
    every run that has not returned yet can be continued to one that
    returns. *)
Lemma BuildTreeSafe_terminates (d : nat) (path : string) (w : World) :
  fits os d path = true ->
  consistent (sig w) ->
  (exists r w', Returns os path w r w') /\
  (forall sched c,
      run os sched (Enter path, w) = Some c ->
      length sched <= 1 + costStat os d path /\
      exists sched' r w', run os (sched ++ sched') (Enter path, w) = Some (Done r, w')).
Proof.
  intros Hfit Hc.
  assert (Hfit0 : fitsTask os d (Enter path, w).1) by (destruct d; exact Hfit).
  assert (Hw0 : weight os d (Enter path) = 1 + costStat os d path)
    by (destruct d; reflexivity).
  split.
  - destruct (exec_finishes _ d (Enter path, w) Hfit0 Hc (Nat.le_refl _)) as (r & w' & He).
    exists r, w'. exact (exec_run _ _ _ He).
  - intros sched c Hrun.
    destruct (run_weight sched d _ c Hfit0 Hrun) as [Hfitc Hle].
    pose proof (run_consistent sched (Enter path, w) c Hc Hrun) as Hcc.
    split; [cbn [fst] in Hle; lia |].
    destruct (exec_finishes _ d c Hfitc Hcc (Nat.le_refl _)) as (r & w' & He).
    destruct (exec_run _ _ _ He) as [sched' Hrun'].
    exists sched', r, w'. rewrite run_app, Hrun. exact Hrun'.
Qed.

End Builder.

Lemma BuildTreeSafe_tripped_witness :
  let w := {| sig := {| closed := true; onceDone := true |}; log := [] |} in
  isTripped (sig w) = true /\
  step testOS [] (Enter "/tmp") w = Some (Done None, w) /\
  Returns testOS "/tmp" w None w /\
  (forall r w', Returns testOS "/tmp" w r w' -> r = None /\ w' = w /\ log w' = log w).
Proof.
  cbn zeta. split; [reflexivity |].
  apply (BuildTreeSafe_tripped testOS "/tmp"). reflexivity.
Defined.

Lemma BuildTreeSafe_leaf_witness :
  isTripped (sig startup) = false /\
  Stat testOS "/tmp/file1.txt" = Some (mkInfo "file1.txt" false) /\
  fiIsDir (mkInfo "file1.txt" false) = false /\
  Returns testOS "/tmp/file1.txt" startup (Some (leaf "file1.txt" "/tmp/file1.txt"))
          (record startup (EvStat "/tmp/file1.txt" true)) /\
  (forall r w',
      Returns testOS "/tmp/file1.txt" startup r w' ->
      r = Some (leaf "file1.txt" "/tmp/file1.txt") /\
      sig w' = sig startup /\
      log w' = log startup ++ [EvStat "/tmp/file1.txt" true]).
Proof.
  split; [reflexivity |]. split; [reflexivity |]. split; [reflexivity |].
  apply (BuildTreeSafe_leaf testOS "/tmp/file1.txt" startup (mkInfo "file1.txt" false));
    reflexivity.
Defined.

(** ** The children of a built directory *)


(** The build scenarios of the repository's tests, in order and, for the
    unsorted listing, with the goroutines finishing last to first. *)
Example BuildTreeSafe_tests :
  (exists w, exec testOS 34 (Enter "/tmp", startup) = Some (Done (Some testTree), w)) /\
  (exists w, exec testOS 3 (Enter "/non/existent/path", startup) = Some (Done None, w)) /\
  (exists w,
      run unsortedOS [[]; []; []; [2]; [2]; [2]; [1]; [1]; [1]; [0]; [0]; [0]; []]
          (Enter "/d", startup) =
      Some (Done (Some (dir "d" "/d" [leaf "b" "/d/b"; leaf "a" "/d/a"; leaf "c" "/d/c"])), w)).
Proof. repeat split; eexists; vm_compute; reflexivity. Qed.

(** ** Failures *)

(** C1 does not hold as stated.  In [/r] the stat of the listed entry
    [a] fails during the build; the build still returns a node for
    [/r], holding the sibling [b] that was built before the failure. *)
Lemma BuildTreeSafe_partial_tree :
  let w' := {| sig := {| closed := true; onceDone := true |};
               log := [EvStat "/r" true; EvReadDir "/r" true;
                       EvStat "/r/b" true; EvStat "/r/a" false] |} in
  Stat brokenOS (Join brokenOS "/r" "a") = None /\
  Returns brokenOS "/r" startup (Some (dir "r" "/r" [leaf "b" "/r/b"])) w' /\
  existsb failed (log w') = true.
Proof.
  cbn zeta. split; [reflexivity |]. split; [| reflexivity].
  exists [[]; []; []; [1]; [1]; [1]; [0]; [0]; [0]; [0]; []]. vm_compute. reflexivity.
Qed.

(** Under the in-order schedule the same build returns [/r] without
    children: [b] polls the signal after [a] has tripped it. *)
Example in_order_build_drops_sibling :
  exists w', exec brokenOS 9 (Enter "/r", startup) = Some (Done (Some (dir "r" "/r" [])), w').
Proof. eexists. vm_compute. reflexivity. Qed.

(** C1, amended. On a finite subtree a build called with the signal
    open returns, and whenever it returns: the result is nil exactly
    when the stat of the root fails or the root is a directory whose
    listing fails; a returned node is built from stats and listings that
    succeeded, entries whose branch came back nil being left out; and if
    any stat or listing failed during the build, the signal is tripped
    when the build returns. *)
Theorem BuildTreeSafe_nil_iff (os : OS) (path : string) (w : World) :
  isTripped (sig w) = false ->
  consistent (sig w) ->
  (forall d, fits os d path = true -> exists r w', Returns os path w r w') /\
  (forall r w',
      Returns os path w r w' ->
      (r = None <->
       Stat os path = None \/
       exists info, Stat os path = Some info /\ fiIsDir info = true /\
                    ReadDir os path = None) /\
      (forall n, r = Some n -> Built os path n) /\
      exists new,
        log w' = log w ++ new /\
        (existsb failed new = true -> isTripped (sig w') = true)).
Proof.
  intros Ht Hc. split.
  - intros d Hfit. exact (proj1 (BuildTreeSafe_terminates os d path w Hfit Hc)).
  - intros r w' Hret. split; [| split].
    + destruct Hret as [sched Hrun].
      destruct (run_Enter os sched path w r w' Hrun)
        as [(Ht' & _) | [(_ & Hs & ->) | [(i & _ & Hs & Hd & ->) | [(i & _ & Hs & Hd & Hr & ->) |
            (i & es & sched0 & slots & _ & Hs & Hd & Hr & _ & _ & ->)]]]].
      * congruence.
      * tauto.
      * split; [discriminate |]. intros [H | (i' & H & Hd' & _)]; congruence.
      * split; [| reflexivity]. intros _. right. eauto.
      * split; [discriminate |]. intros [H | (i' & H & _ & Hr')]; congruence.
    + intros n ->. exact (Returns_Built os path w n w' Hret).
    + destruct Hret as [sched Hrun].
      destruct (run_alarm os sched (Enter path, w) (Done r, w') Hc Hrun)
        as (_ & new & Hlog & Halarm).
      exists new. split; [exact Hlog |].
      intros Hf. destruct (Halarm (or_introl Hf)) as [H | H]; [discriminate | exact H].
Qed.

Lemma BuildTreeSafe_nil_iff_witness :
  isTripped (sig startup) = false /\
  consistent (sig startup) /\
  (forall d, fits brokenOS d "/r" = true -> exists r w', Returns brokenOS "/r" startup r w') /\
  (forall r w',
      Returns brokenOS "/r" startup r w' ->
      (r = None <->
       Stat brokenOS "/r" = None \/
       exists info, Stat brokenOS "/r" = Some info /\ fiIsDir info = true /\
                    ReadDir brokenOS "/r" = None) /\
      (forall n, r = Some n -> Built brokenOS "/r" n) /\
      exists new,
        log w' = log startup ++ new /\
        (existsb failed new = true -> isTripped (sig w') = true)).
Proof.
  split; [reflexivity |]. split; [reflexivity |].
  apply (BuildTreeSafe_nil_iff brokenOS "/r" startup); reflexivity.
Defined.

(** ** Resetting the signal *)

(** C9 does not hold as stated.  A build of a missing path trips the
    signal; the next build in the same process, of an existing file, is
    called with the signal still tripped and returns nil without a
    stat. *)
Lemma BuildTreeSafe_does_not_reset :
  let w1 := {| sig := {| closed := true; onceDone := true |};
               log := [EvStat "/missing" false] |} in
  Returns testOS "/missing" startup None w1 /\
  isTripped (sig w1) = true /\
  Stat testOS "/tmp/file1.txt" = Some (mkInfo "file1.txt" false) /\
  Returns testOS "/tmp/file1.txt" w1 None w1 /\
  (forall r w2, Returns testOS "/tmp/file1.txt" w1 r w2 -> r = None /\ w2 = w1).
Proof.
  cbn zeta. split; [exists [[]; []; []]; vm_compute; reflexivity |].
  split; [reflexivity |]. split; [reflexivity |].
  destruct (Enter_tripped testOS "/tmp/file1.txt"
              {| sig := {| closed := true; onceDone := true |};
                 log := [EvStat "/missing" false] |} eq_refl) as (_ & Hret & Hall).
  split; [exact Hret |]. exact Hall.
Qed.

(** C9, amended. The signal is opened again by [ResetGlobalState] and
    by nothing else: after [ResetGlobalState] the signal is open and
    fresh, and a build called then polls it open and goes on to its
    stat; a build called while the signal is tripped finds it tripped
    and returns nil, leaving it tripped; and no action of a build
    un-trips the signal. *)
Theorem signal_reset_only_by_ResetGlobalState (os : OS) (path : string) (w : World) :
  let fresh := {| sig := ResetGlobalState (sig w); log := log w |} in
  isTripped (sig fresh) = false /\
  consistent (sig fresh) /\
  step os [] (Enter path) fresh = Some (AtStat path, fresh) /\
  (isTripped (sig w) = true ->
   Returns os path w None w /\
   forall r w', Returns os path w r w' -> r = None /\ isTripped (sig w') = true) /\
  (forall sched c c',
      run os sched c = Some c' ->
      isTripped (sig c.2) = true -> isTripped (sig c'.2) = true).
Proof.
  cbn zeta. split; [reflexivity |]. split; [reflexivity |]. split; [reflexivity |].
  split.
  - intros Ht. destruct (Enter_tripped os path w Ht) as (_ & Hret & Hall).
    split; [exact Hret |]. intros r w' H. destruct (Hall r w' H) as (-> & ->). auto.
  - intros sched c c'. apply run_monotone.
Qed.

(** * Further properties *)

(** ** The signal under any sequence of calls *)

Lemma runOps_consistent (ops : list SignalOp) :
  forall s,
    consistent s ->
    exists s',
      runOps ops s = Some s' /\ consistent s' /\
      isTripped s' = match last ops with
                     | Some OpCloseOnce => true
                     | Some OpResetGlobalState => false
                     | None => isTripped s
                     end.
Proof.
  induction ops as [|op ops IH]; intros s Hs.
  - exists s. auto.
  - destruct op; cbn [runOps].
    + destruct (CloseOnce_total s Hs) as [s1 H1]. rewrite H1.
      destruct (CloseOnce_consistent s s1 Hs H1) as [Hc1 Ht1].
      destruct (IH s1 Hc1) as (s' & Hrun & Hc' & Ht').
      exists s'. split; [exact Hrun |]. split; [exact Hc' |].
      rewrite Ht', last_cons. destruct (last ops) as [[|]|]; auto.
    + destruct (IH (ResetGlobalState s) (ResetGlobalState_consistent s))
        as (s' & Hrun & Hc' & Ht').
      exists s'. split; [exact Hrun |]. split; [exact Hc' |].
      rewrite Ht', last_cons. destruct (last ops) as [[|]|]; auto.
Qed.

(** X1. From process start, under every sequence of [CloseOnce] and
    [ResetGlobalState] calls, no call panics (the channel is never
    closed twice), the channel is closed exactly when the once has run,
    and the signal ends tripped exactly when the last call was a
    [CloseOnce]. *)
Theorem signal_ops_never_panic (ops : list SignalOp) :
  exists s,
    runOps ops initial = Some s /\
    consistent s /\
    (isTripped s = true <-> last ops = Some OpCloseOnce).
Proof.
  destruct (runOps_consistent ops initial initial_consistent) as (s & Hrun & Hc & Ht).
  exists s. split; [exact Hrun |]. split; [exact Hc |].
  rewrite Ht. destruct (last ops) as [[|]|]; cbn; split; congruence.
Qed.

(** ** Search: nil pointers and narrower queries *)

Lemma andThen_snd (a b : Out) :
  (a >> b).2 = Returned <-> a.2 = Returned /\ b.2 = Returned.
Proof.
  destruct a as [o [|]], b as [o' r]; cbn; intuition congruence.
Qed.

Lemma SearchNode_returned_wf (ToLower : string -> string) (q : string) (n : Node) :
  (SearchNode ToLower n q).2 = Returned -> wf n.
Proof.
  induction n as [name cs isDir path IH] using Node_ind.
  rewrite SearchNode_eq, andThen_snd. intros [_ Hloop].
  apply wf_Forall. cbn [Children] in *.
  induction cs as [|c cs IHcs]; [constructor |].
  apply Forall_cons in IH as [IHc IH]. cbn [fold_right] in Hloop.
  destruct c as [m|]; [| discriminate].
  apply andThen_snd in Hloop as [Hm Hrest].
  constructor; [eauto | auto].
Qed.

(** X7. [SearchDFS] on a non-nil node returns exactly when the tree
    holds no nil pointer at any depth; on any nil child it panics. *)
Theorem SearchDFS_returns_iff_wf (ToLower : string -> string) (n : Node) (q : string) :
  (SearchDFS ToLower (Some n) q).2 = Returned <-> wf n.
Proof.
  split.
  - apply SearchNode_returned_wf.
  - intros Hwf. cbn [SearchDFS]. rewrite (SearchNode_preorder ToLower q n Hwf). reflexivity.
Qed.

Lemma append_assoc (a b c : string) : (a +:+ b) +:+ c = a +:+ (b +:+ c).
Proof.
  induction a as [|x a IH]; [reflexivity |].
  rewrite !append_cons, IH. reflexivity.
Qed.

Lemma Contains_trans (s b a : string) :
  Contains s b = true -> Contains b a = true -> Contains s a = true.
Proof.
  rewrite !Contains_spec. intros (x & y & ->) (u & v & ->).
  exists (x +:+ u), (v +:+ y). rewrite !append_assoc. reflexivity.
Qed.

Lemma filter_sublist_impl {A : Type} (f g : A -> bool) (l : list A) :
  (forall x, f x = true -> g x = true) ->
  sublist (List.filter f l) (List.filter g l).
Proof.
  intros Hfg. induction l as [|x l IH]; cbn; [constructor |].
  destruct (f x) eqn:Hf.
  - rewrite (Hfg x Hf). constructor. exact IH.
  - destruct (g x); [constructor |]; exact IH.
Qed.

Lemma sublist_map {A B : Type} (f : A -> B) (l k : list A) :
  sublist l k -> sublist (map f l) (map f k).
Proof. induction 1; cbn; constructor; assumption. Qed.

(** X8. A narrower query narrows the result: when the lower-cased
    [q1] is a substring of the lower-cased [q2], the paths printed for
    [q2] are among those printed for [q1], in the same order. *)
Theorem SearchDFS_narrower_query (ToLower : string -> string) (n : Node) (q1 q2 : string) :
  wf n ->
  Contains (ToLower q2) (ToLower q1) = true ->
  sublist (SearchDFS ToLower (Some n) q2).1 (SearchDFS ToLower (Some n) q1).1.
Proof.
  intros Hwf Hq. cbn [SearchDFS]. rewrite !SearchNode_preorder by exact Hwf. cbn [fst].
  apply sublist_map, filter_sublist_impl.
  intros m Hm. exact (Contains_trans _ _ _ Hm Hq).
Qed.

Lemma SearchDFS_narrower_query_witness :
  wf testTree /\
  Contains (asciiToLower "File3") (asciiToLower "FILE") = true /\
  sublist (SearchDFS asciiToLower (Some testTree) "File3").1
          (SearchDFS asciiToLower (Some testTree) "FILE").1.
Proof.
  split; [exact wf_testTree |]. split; [reflexivity |].
  apply (SearchDFS_narrower_query asciiToLower testTree "FILE" "File3");
    [exact wf_testTree | reflexivity].
Defined.

(** ** Print: the prefix, and what an unfiltered print lists *)

Lemma indent_andThen (p : string) (a b : Out) :
  indent p (a >> b) = indent p a >> indent p b.
Proof.
  destruct a as [o [|]], b as [o' r]; unfold indent; cbn; rewrite ?map_app; reflexivity.
Qed.

Lemma PrintNode_indent (p : string) (regex : option Regexp) (dirsOnly : bool) (n : Node) :
  forall q, PrintNode n (p +:+ q) regex dirsOnly = indent p (PrintNode n q regex dirsOnly).
Proof.
  induction n as [name cs isDir path IH] using Node_ind. intros q.
  rewrite !PrintNode_eq. cbn [Children]. generalize (length cs) as total. intros total.
  cut (forall i, printRange total (p +:+ q) regex dirsOnly i cs =
                 indent p (printRange total q regex dirsOnly i cs)).
  { intros H. exact (H 0). }
  induction cs as [|[c|] cs IHcs]; intros i; [reflexivity | | reflexivity].
  apply Forall_cons in IH as [IHc IH].
  cbn [printRange]. fold (printRange total (p +:+ q) regex dirsOnly).
  fold (printRange total q regex dirsOnly).
  rewrite indent_andThen, (IHcs IH (S i)). f_equal.
  assert (Hemit :
    Println ((p +:+ q) +:+ (if (i =? total - 1)%nat then "└── " else "├── ") +:+ Name c) >>
    (if IsDir c
     then PrintNode c (if (i =? total - 1)%nat
                       then (p +:+ q) +:+ "    " else (p +:+ q) +:+ "│   ") regex dirsOnly
     else skip) =
    indent p
      (Println (q +:+ (if (i =? total - 1)%nat then "└── " else "├── ") +:+ Name c) >>
       (if IsDir c
        then PrintNode c (if (i =? total - 1)%nat
                          then q +:+ "    " else q +:+ "│   ") regex dirsOnly
        else skip))).
  { rewrite indent_andThen. f_equal.
    - unfold indent, Println. cbn. rewrite append_assoc. reflexivity.
    - destruct (IsDir c); [| reflexivity].
      destruct (i =? total - 1)%nat; rewrite append_assoc; apply IHc. }
  destruct (dirsOnly && negb (IsDir c)); [reflexivity |].
  destruct regex as [re|]; [| exact Hemit].
  destruct (negb (MatchString re (Name c))); [| exact Hemit].
  destruct (IsDir c) eqn:Hd; [| reflexivity].
  destruct (hasMatch re (Children c)) as [[|]|]; [| reflexivity | reflexivity].
  exact Hemit.
Qed.

(** X9. The prefix is put in front of every line and has no other
    effect: printing with prefix [p +:+ q] gives the lines of printing
    with prefix [q], each with [p] in front, and the same outcome, for
    every tree, filter and flag (a nil node or child included). *)
Theorem PrintTreeDFS_prefix (node : option Node) (p q : string) (regex : option Regexp)
    (dirsOnly : bool) :
  PrintTreeDFS node (p +:+ q) regex dirsOnly =
  indent p (PrintTreeDFS node q regex dirsOnly).
Proof.
  destruct node as [n|]; [apply PrintNode_indent | reflexivity].
Qed.

Lemma leafless_eq (n : Node) :
  leafless n <->
  (IsDir n = false -> Children n = []) /\ Forall leafless (nonNil (Children n)).
Proof.
  destruct n as [name cs isDir path]. cbn [leafless Children IsDir].
  apply and_iff_compat_l.
  induction cs as [|[c|] cs IH].
  - split; [constructor | trivial].
  - rewrite nonNil_Some, Forall_cons, IH. reflexivity.
  - exact IH.
Qed.

Lemma Forall2_concat_imap {A B C : Type} (R : B -> C -> Prop) (ms : list A) :
  forall (F : nat -> A -> list B) (G : A -> list C),
    (forall i m, m ∈ ms -> Forall2 R (F i m) (G m)) ->
    Forall2 R (concat (imap F ms)) (concat (map G ms)).
Proof.
  induction ms as [|m ms IH]; intros F G H; cbn; [constructor |].
  apply Forall2_app.
  - apply H. left.
  - apply IH. intros i m' Hm'. apply H. right. exact Hm'.
Qed.

Lemma filter_concat {A : Type} (f : A -> bool) (ls : list (list A)) :
  List.filter f (concat ls) = concat (map (List.filter f) ls).
Proof.
  induction ls as [|l ls IH]; cbn; [reflexivity |].
  rewrite List.filter_app, IH. reflexivity.
Qed.

Lemma PrintNode_lists (dirsOnly : bool) (n : Node) :
  wf n -> leafless n ->
  forall prefix,
    Forall2 (fun line m => exists ind, line = prefix +:+ ind +:+ Name m)
            (PrintNode n prefix None dirsOnly).1
            (List.filter (fun m => negb dirsOnly || IsDir m) (tail (nodes n))).
Proof.
  induction n as [name cs isDir path IH] using Node_ind. intros Hwf Hleaf prefix.
  rewrite (PrintNode_blocks None dirsOnly _ Hwf), nodes_eq. cbn [fst tail Children].
  apply wf_children in Hwf as [_ Hwf]. apply leafless_eq in Hleaf as [_ Hleaf].
  cbn [Children] in *.
  assert (IH' : Forall (fun m => forall pre,
                  Forall2 (fun line m' => exists ind, line = pre +:+ ind +:+ Name m')
                          (PrintNode m pre None dirsOnly).1
                          (List.filter (fun m' => negb dirsOnly || IsDir m')
                                       (tail (nodes m)))) (nonNil cs)).
  { clear prefix. induction cs as [|[c|] cs IHcs]; [constructor | |].
    - apply Forall_cons in IH as [IHc IH]. rewrite nonNil_Some in *.
      apply Forall_cons in Hwf as [Hc Hwf]. apply Forall_cons in Hleaf as [Hl Hleaf].
      constructor; [intros pre; apply IHc; assumption | apply IHcs; assumption].
    - apply Forall_cons in IH as [_ IH]. apply IHcs; assumption. }
  clear IH. rewrite filter_concat, map_map.
  apply Forall2_concat_imap. intros i m Hm.
  rewrite Forall_forall in IH', Hleaf.
  specialize (IH' m Hm). specialize (Hleaf m Hm). apply leafless_eq in Hleaf as [Hleaf _].
  assert (Htail : tail (nodes m) = concat (map nodes (nonNil (Children m))))
    by (rewrite nodes_eq; reflexivity).
  rewrite (nodes_eq m). unfold block, kept. cbn [List.filter PrintTreeDFS].
  destruct (IsDir m) eqn:Hd.
  - rewrite andb_false_r, orb_true_r. cbn [negb andb].
    constructor; [eexists; reflexivity |].
    rewrite <- Htail.
    eapply Forall2_impl; [apply IH' |].
    intros line m' [ind ->]. exists (continuation (i =? length cs - 1)%nat +:+ ind).
    rewrite !append_assoc. reflexivity.
  - rewrite (Hleaf eq_refl). cbn [nonNil omap map concat List.filter].
    rewrite andb_true_r, orb_false_r.
    destruct dirsOnly; cbn [negb andb]; constructor; [eexists; reflexivity | constructor].
Qed.

(** X10. On a tree without nil pointers in which only directories have
    children, a print without regex lists, one line each and in
    depth-first pre-order, all nodes below the root, or under
    [dirsOnly] all directories below the root; each line is the
    prefix, an indentation, and the node's name. *)
Theorem PrintTreeDFS_lists_descendants (n : Node) (prefix : string) (dirsOnly : bool) :
  wf n ->
  leafless n ->
  (PrintTreeDFS (Some n) prefix None dirsOnly).2 = Returned /\
  Forall2 (fun line m => exists ind, line = prefix +:+ ind +:+ Name m)
          (PrintTreeDFS (Some n) prefix None dirsOnly).1
          (List.filter (fun m => negb dirsOnly || IsDir m) (tail (nodes n))).
Proof.
  intros Hwf Hleaf. split.
  - cbn [PrintTreeDFS]. rewrite (PrintNode_blocks None dirsOnly n Hwf). reflexivity.
  - apply PrintNode_lists; assumption.
Qed.

Lemma leafless_testTree : leafless testTree.
Proof. cbn. intuition discriminate. Qed.

Lemma PrintTreeDFS_lists_descendants_witness :
  wf testTree /\
  leafless testTree /\
  (PrintTreeDFS (Some testTree) "" None true).2 = Returned /\
  Forall2 (fun line m => exists ind, line = "" +:+ ind +:+ Name m)
          (PrintTreeDFS (Some testTree) "" None true).1
          (List.filter (fun m => negb true || IsDir m) (tail (nodes testTree))).
Proof.
  split; [exact wf_testTree |]. split; [exact leafless_testTree |].
  apply (PrintTreeDFS_lists_descendants testTree "" true);
    [exact wf_testTree | exact leafless_testTree].
Defined.

(** ** What a build returns, at every depth *)

Lemma Built_sound (os : OS) (n : Node) :
  forall path,
    Built os path n ->
    wf n /\ leafless n /\ Forall (mirrors os) (nodes n).
Proof.
  induction n as [name cs isDir p IH] using Node_ind. intros path Hb.
  apply Built_eq in Hb as (Hp & Hstat & Hkids). cbn [Path Name IsDir Children] in *.
  subst p.
  assert (Hcs : Forall (fun c => exists m, c = Some m /\ wf m /\ leafless m /\
                                           Forall (mirrors os) (nodes m)) cs).
  { destruct isDir; [| subst cs; constructor].
    destruct Hkids as (entries & chosen & _ & _ & Hall). clear Hstat.
    revert chosen Hall. induction cs as [|c cs IHcs]; intros chosen Hall; [constructor |].
    apply Forall_cons in IH as [IHc IH].
    destruct chosen as [|e chosen]; [destruct Hall |]. cbn [All2] in Hall.
    destruct Hall as [Hc Hall]. destruct c as [m|]; [| destruct Hc].
    constructor; [| exact (IHcs IH chosen Hall)].
    exists m. split; [reflexivity |]. exact (IHc _ Hc). }
  clear IH. split; [| split].
  - apply wf_Forall. cbn [Children].
    eapply Forall_impl; [exact Hcs |]. intros c (m & -> & Hm & _). eauto.
  - apply leafless_eq. cbn [Children IsDir]. split.
    + intros ->. exact Hkids.
    + clear Hkids Hstat. induction Hcs as [|c cs (m & -> & _ & Hm & _) _ IHcs];
        [constructor |]. rewrite nonNil_Some. constructor; assumption.
  - rewrite nodes_eq. cbn [Children]. constructor.
    + split; [exact Hstat |]. cbn [IsDir Path]. intros ->.
      destruct Hkids as (entries & _ & -> & _). eauto.
    + clear Hkids Hstat. induction Hcs as [|c cs (m & -> & _ & _ & Hm) _ IHcs];
        [constructor |]. rewrite nonNil_Some. cbn [map concat].
      apply Forall_app. split; assumption.
Qed.

(** X2. A tree returned by [BuildTreeSafe(path)], under any schedule
    and whatever failed on the way, has no nil pointer at any depth,
    has children only under directories, has [path] as its root path,
    and every node of it mirrors the filesystem: its path stats to its
    name and flag, and a directory's path can be listed. *)
Theorem BuildTreeSafe_result_sound (os : OS) (path : string) (w : World) (n : Node)
    (w' : World) :
  Returns os path w (Some n) w' ->
  wf n /\ leafless n /\ Path n = path /\ Forall (mirrors os) (nodes n).
Proof.
  intros Hret. pose proof (Returns_Built os path w n w' Hret) as Hb.
  destruct (Built_sound os n path Hb) as (Hwf & Hleaf & Hall).
  apply Built_eq in Hb as [Hp _]. auto.
Qed.

(** X11. What a build returns can be handed to both consumers: on a
    returned tree [SearchDFS] returns, and every path it prints stats
    successfully; [PrintTreeDFS] returns under every prefix, regex and
    flag; and the unfiltered print has one line for each node below the
    root. *)
Theorem BuildTreeSafe_then_consumers (os : OS) (path : string) (w : World) (n : Node)
    (w' : World) :
  Returns os path w (Some n) w' ->
  (forall ToLower q,
      (SearchDFS ToLower (Some n) q).2 = Returned /\
      Forall (fun p => is_Some (Stat os p)) (SearchDFS ToLower (Some n) q).1) /\
  (forall prefix regex dirsOnly,
      (PrintTreeDFS (Some n) prefix regex dirsOnly).2 = Returned) /\
  (forall prefix,
      length (PrintTreeDFS (Some n) prefix None false).1 = length (nodes n) - 1).
Proof.
  intros Hret. pose proof (Returns_Built os path w n w' Hret) as Hb.
  destruct (Built_sound os n path Hb) as (Hwf & Hleaf & Hall).
  split; [| split].
  - intros ToLower q. cbn [SearchDFS]. rewrite (SearchNode_preorder ToLower q n Hwf).
    split; [reflexivity |]. cbn [fst].
    apply Forall_fmap, Forall_forall. intros m Hm.
    apply list_elem_of_In, List.filter_In in Hm as [Hm _].
    rewrite Forall_forall in Hall. apply list_elem_of_In in Hm.
    destruct (Hall m Hm) as [Hs _]. cbn. rewrite Hs. eauto.
  - intros prefix regex dirsOnly. cbn [PrintTreeDFS].
    rewrite (PrintNode_blocks regex dirsOnly n Hwf). reflexivity.
  - intros prefix. pose proof (PrintNode_lists false n Hwf Hleaf prefix) as H.
    apply Forall2_length in H. cbn [PrintTreeDFS]. rewrite H.
    assert (Hf : forall l : list Node, List.filter (fun m => negb false || IsDir m) l = l).
    { induction l as [|x l IHl]; cbn; [reflexivity | rewrite IHl at 1; reflexivity]. }
    rewrite Hf, nodes_eq. cbn. lia.
Qed.

(** ** A build in which nothing fails *)

Lemma snapshot_eq (os : OS) (d : nat) (path : string) :
  snapshot os d path =
  match Stat os path with
  | None => None
  | Some info =>
      if negb (fiIsDir info)
      then Some {| Name := fiName info; Children := []; IsDir := false; Path := path |}
      else
        match d with
        | 0 => None
        | S d' =>
            match ReadDir os path with
            | None => None
            | Some entries =>
                match mapM (fun e => snapshot os d' (Join os path e)) entries with
                | Some kids =>
                    Some {| Name := fiName info; Children := map Some kids;
                            IsDir := true; Path := path |}
                | None => None
                end
            end
        end
  end.
Proof. destruct d; reflexivity. Qed.

Lemma snapshot_fits (os : OS) (d : nat) :
  forall path, is_Some (snapshot os d path) -> fits os d path = true.
Proof.
  induction d as [|d IH]; intros path; rewrite snapshot_eq; cbn [fits];
    destruct (Stat os path) as [info|]; try reflexivity;
    destruct (fiIsDir info); cbn [negb]; try reflexivity.
  - intros [n [=]].
  - destruct (ReadDir os path) as [entries|]; [| reflexivity].
    destruct (mapM _ entries) as [kids|] eqn:Hkids; [| intros [n [=]]].
    intros _. apply forallb_forall. intros e He. apply IH.
    assert (His : is_Some (mapM (fun e => snapshot os d (Join os path e)) entries))
      by (rewrite Hkids; eauto).
    apply mapM_is_Some in His. rewrite Forall_forall in His.
    apply (His e). apply list_elem_of_In. exact He.
Qed.

Lemma mapM_slots {A : Type} (f : A -> option Node) (entries : list A)
    (slots : list (option Node)) :
  Forall2 (fun e s => s = f e /\ is_Some s) entries slots ->
  mapM f entries = Some (nonNil slots).
Proof.
  induction 1 as [|e s entries slots [-> [n Hn]] _ IH]; [reflexivity |].
  cbn [mapM]. rewrite Hn, IH. reflexivity.
Qed.

Lemma Exact_Some (os : OS) (d : nat) (path : string) (t : Task) :
  Exact os d path t -> is_Some (snapshot os d path).
Proof. destruct t; cbn; tauto. Qed.

(** While nothing fails, an action keeps the signal as it is, logs no
    failure, and keeps the build on its way to the snapshot. *)
Lemma step_Exact (os : OS) (pos : list nat) :
  forall (d : nat) (path : string) (t : Task) (w : World) (t' : Task) (w' : World),
    Exact os d path t ->
    isTripped (sig w) = false ->
    step os pos t w = Some (t', w') ->
    Exact os d path t' /\ sig w' = sig w /\
    exists new, log w' = log w ++ new /\ existsb failed new = false.
Proof.
  induction pos as [|i pos IH]; intros d path t w t' w' Hex Ht Hstep.
  - destruct t as [parent name | p | p | | node p | | node kids | r]; cbn in Hstep.
    + rewrite Ht in Hstep. injection Hstep as <- <-. cbn in Hex |- *.
      destruct Hex as [Hs ->]. repeat split; auto. exists []. rewrite app_nil_r. auto.
    + rewrite Ht in Hstep. injection Hstep as <- <-. cbn in Hex |- *.
      repeat split; try tauto. exists []. rewrite app_nil_r. auto.
    + cbn in Hex. destruct Hex as [Hs <-]. pose proof Hs as Hs'.
      rewrite snapshot_eq in Hs'.
      destruct (Stat os path) as [[name isDir]|] eqn:Hstat; [| destruct Hs' as [n [=]]].
      destruct isDir; cbn in Hstep, Hs'; injection Hstep as <- <-.
      * cbn. repeat split; auto. exists [EvStat path true]. auto.
      * cbn. split; [| split; [reflexivity | exists [EvStat path true]; auto]].
        split; [exact Hs |]. rewrite snapshot_eq, Hstat. reflexivity.
    + destruct Hex as [_ []].
    + cbn in Hex. destruct Hex as (Hs & <- & Hnode & Hstat). pose proof Hs as Hs'.
      rewrite snapshot_eq, Hstat in Hs'. cbn in Hs'.
      destruct d as [|d]; [destruct Hs' as [n [=]] |].
      destruct (ReadDir os path) as [entries|] eqn:Hread; [| destruct Hs' as [n [=]]].
      injection Hstep as <- <-.
      split; [| split; [reflexivity | exists [EvReadDir path true]; auto]].
      cbn [Exact]. split; [exact Hs |]. split; [exact Hnode |]. split; [exact Hstat |].
      exists entries. split; [exact Hread |].
      destruct (mapM _ entries) as [kids|] eqn:Hkids; [| destruct Hs' as [n [=]]].
      assert (His : is_Some (mapM (fun e => snapshot os d (Join os path e)) entries))
        by (rewrite Hkids; eauto).
      apply mapM_is_Some in His.
      apply All2_Forall2, Forall2_fmap_r, Forall_Forall2_diag.
      eapply Forall_impl; [exact His |]. intros e He. cbn. auto.
    + destruct Hex as [_ []].
    + destruct (mapM slot kids) as [slots|] eqn:Hslots; [| discriminate].
      injection Hstep as <- <-. apply mapM_slot in Hslots. subst kids.
      split; [| split; [reflexivity | exists []; rewrite app_nil_r; auto]].
      cbn [Exact] in Hex |- *. destruct Hex as (Hs & Hnode & Hstat & Hd).
      split; [exact Hs |].
      destruct d as [|d]; [destruct Hd |]. destruct Hd as (entries & Hread & Hkids).
      apply All2_Forall2, Forall2_fmap_r in Hkids.
      assert (Hslots : Forall2 (fun e s => s = snapshot os d (Join os path e) /\ is_Some s)
                               entries slots).
      { eapply Forall2_impl; [exact Hkids |]. intros e s [Hse Hr]. cbn in Hr.
        split; [exact Hr |]. rewrite Hr. exact Hse. }
      apply mapM_slots in Hslots.
      rewrite snapshot_eq, Hstat. cbn [negb fiIsDir fiName]. rewrite Hread, Hslots.
      rewrite assemble_eq, Hnode. reflexivity.
    + discriminate.
  - destruct t as [| | | | | | node kids |]; try discriminate. cbn in Hstep.
    destruct (kids !! i) as [kid|] eqn:Hkid; [| discriminate].
    destruct (step os pos kid w) as [[kid' w'']|] eqn:Hkidstep; [| discriminate].
    injection Hstep as <- <-.
    cbn [Exact] in Hex |- *. destruct Hex as (Hs & Hnode & Hstat & Hd).
    destruct d as [|d]; [destruct Hd |]. destruct Hd as (entries & Hread & Hkids).
    apply All2_Forall2 in Hkids.
    destruct (Forall2_lookup_r _ _ _ _ _ Hkids Hkid) as (e & He & Hek).
    destruct (IH _ _ _ _ _ _ Hek Ht Hkidstep) as (Hek' & Hsig & Hlog).
    split; [| auto].
    split; [exact Hs |]. split; [exact Hnode |]. split; [exact Hstat |].
    exists entries. split; [exact Hread |]. apply All2_Forall2.
    rewrite <- (list_insert_id entries i e He).
    apply Forall2_insert; assumption.
Qed.

Lemma run_Exact (os : OS) (sched : Schedule) :
  forall (d : nat) (path : string) (c c' : Task * World),
    Exact os d path c.1 ->
    isTripped (sig c.2) = false ->
    run os sched c = Some c' ->
    Exact os d path c'.1 /\ sig c'.2 = sig c.2 /\
    exists new, log c'.2 = log c.2 ++ new /\ existsb failed new = false.
Proof.
  induction sched as [|pos sched IH]; intros d path c c' Hex Ht; cbn [run].
  - intros [= <-]. repeat split; auto. exists []. rewrite app_nil_r. auto.
  - destruct (step os pos c.1 c.2) as [[t1 w1]|] eqn:Hstep; [| discriminate].
    intros Hrun.
    destruct (step_Exact os pos d path _ _ _ _ Hex Ht Hstep) as (Hex1 & Hsig1 & n1 & Hl1 & Hf1).
    assert (Ht1 : isTripped (sig (t1, w1).2) = false) by (cbn; rewrite Hsig1; exact Ht).
    destruct (IH d path (t1, w1) c' Hex1 Ht1 Hrun) as (Hex' & Hsig' & n2 & Hl2 & Hf2).
    cbn [fst snd] in *. split; [exact Hex' |]. split; [congruence |].
    exists (n1 ++ n2). rewrite Hl2, Hl1, app_assoc, existsb_app, Hf1, Hf2. auto.
Qed.

(** X3. When every stat and listing under [path] succeeds (the
    snapshot of the subtree exists) and the signal is open, the build
    returns that snapshot under every schedule: every listed entry at
    every depth, in listing order; the signal stays as it was and no failure
    is logged. *)
Theorem BuildTreeSafe_without_failure (os : OS) (d : nat) (path : string) (w : World)
    (n : Node) :
  snapshot os d path = Some n ->
  isTripped (sig w) = false ->
  consistent (sig w) ->
  (exists w', Returns os path w (Some n) w') /\
  (forall r w',
      Returns os path w r w' ->
      r = Some n /\ sig w' = sig w /\
      exists new, log w' = log w ++ new /\ existsb failed new = false).
Proof.
  intros Hsnap Ht Hc.
  assert (Hex : Exact os d path (Enter path)) by (cbn; rewrite Hsnap; eauto).
  assert (Hall : forall r w',
             Returns os path w r w' ->
             r = Some n /\ sig w' = sig w /\
             exists new, log w' = log w ++ new /\ existsb failed new = false).
  { intros r w' [sched Hrun].
    destruct (run_Exact os sched d path (Enter path, w) (Done r, w') Hex Ht Hrun)
      as ([_ Hr] & Hsig & Hlog).
    cbn in Hr. split; [congruence | auto]. }
  split; [| exact Hall].
  assert (Hfit : fits os d path = true) by (apply snapshot_fits; rewrite Hsnap; eauto).
  destruct (proj1 (BuildTreeSafe_terminates os d path w Hfit Hc)) as (r & w' & Hret).
  exists w'. destruct (Hall r w' Hret) as [-> _]. exact Hret.
Qed.

(** ** When the signal trips *)

Lemma existsb_pending_Go (path : string) (entries : list string) :
  existsb pending (map (Go path) entries) = false.
Proof. induction entries; auto. Qed.

Lemma existsb_insert_inv {A : Type} (f : A -> bool) (l : list A) (i : nat) (x : A) :
  existsb f (<[i:=x]> l) = true -> f x = true \/ existsb f l = true.
Proof.
  rewrite !existsb_exists. intros (z & Hz & Hfz).
  apply list_elem_of_In, list_elem_of_lookup in Hz as [j Hj].
  apply list_lookup_insert_Some in Hj as [(-> & -> & _) | [_ Hj]]; [auto |].
  right. exists z. split; [| exact Hfz].
  apply list_elem_of_In, list_elem_of_lookup. eauto.
Qed.

Lemma existsb_lookup {A : Type} (f : A -> bool) (l : list A) (i : nat) (x : A) :
  l !! i = Some x -> f x = true -> existsb f l = true.
Proof.
  intros Hi Hx. apply existsb_exists. exists x. split; [| exact Hx].
  apply list_elem_of_In, list_elem_of_lookup. eauto.
Qed.

(** A goroutine is on its way to [CloseOnce] only after a failure, and
    the signal trips only through such a goroutine. *)
Lemma step_quiet (os : OS) (pos : list nat) :
  forall (t : Task) (w : World) (t' : Task) (w' : World),
    step os pos t w = Some (t', w') ->
    exists new,
      log w' = log w ++ new /\
      (pending t' = true -> pending t = true \/ existsb failed new = true) /\
      (isTripped (sig w') = true -> isTripped (sig w) = true \/ pending t = true).
Proof.
  induction pos as [|i pos IH]; intros t w t' w' Hstep.
  - destruct t as [parent name | p | p | | node p | | node kids | r]; cbn in Hstep.
    + destruct (isTripped (sig w)) eqn:Ht; injection Hstep as <- <-;
        exists []; rewrite app_nil_r; cbn; intuition congruence.
    + destruct (isTripped (sig w)) eqn:Ht; injection Hstep as <- <-;
        exists []; rewrite app_nil_r; cbn; intuition congruence.
    + destruct (Stat os p) as [info|].
      * destruct (fiIsDir info); cbn in Hstep; injection Hstep as <- <-;
          exists [EvStat p true]; cbn; intuition congruence.
      * injection Hstep as <- <-. exists [EvStat p false]. cbn. intuition congruence.
    + destruct (trip w) as [w1|] eqn:Htrip; [| discriminate].
      injection Hstep as <- <-. apply trip_inv in Htrip as [_ Hlog].
      exists []. rewrite app_nil_r. cbn. intuition congruence.
    + destruct (ReadDir os p) as [entries|]; injection Hstep as <- <-.
      * exists [EvReadDir p true]. cbn [pending]. rewrite existsb_pending_Go.
        cbn. intuition congruence.
      * exists [EvReadDir p false]. cbn. intuition congruence.
    + destruct (trip w) as [w1|] eqn:Htrip; [| discriminate].
      injection Hstep as <- <-. apply trip_inv in Htrip as [_ Hlog].
      exists []. rewrite app_nil_r. cbn. intuition congruence.
    + destruct (mapM slot kids); [| discriminate]. injection Hstep as <- <-.
      exists []. rewrite app_nil_r. cbn. intuition congruence.
    + discriminate.
  - destruct t as [| | | | | | node kids |]; try discriminate. cbn in Hstep.
    destruct (kids !! i) as [kid|] eqn:Hkid; [| discriminate].
    destruct (step os pos kid w) as [[kid' w'']|] eqn:Hkidstep; [| discriminate].
    injection Hstep as <- <-.
    destruct (IH _ _ _ _ Hkidstep) as (new & Hlog & Hp & Ht).
    exists new. split; [exact Hlog |]. cbn [pending]. split.
    + intros H. apply existsb_insert_inv in H as [H | H]; [| auto].
      destruct (Hp H) as [H' | H']; [| auto].
      left. exact (existsb_lookup pending kids i kid Hkid H').
    + intros H. destruct (Ht H) as [H' | H']; [auto |].
      right. exact (existsb_lookup pending kids i kid Hkid H').
Qed.

Lemma run_quiet (os : OS) (sched : Schedule) :
  forall (c c' : Task * World),
    run os sched c = Some c' ->
    exists new,
      log c'.2 = log c.2 ++ new /\
      (pending c'.1 = true \/ isTripped (sig c'.2) = true ->
       pending c.1 = true \/ isTripped (sig c.2) = true \/ existsb failed new = true).
Proof.
  induction sched as [|pos sched IH]; intros c c'; cbn [run].
  - intros [= <-]. exists []. rewrite app_nil_r. intuition.
  - destruct (step os pos c.1 c.2) as [[t1 w1]|] eqn:Hstep; [| discriminate].
    intros Hrun.
    destruct (step_quiet os pos _ _ _ _ Hstep) as (n1 & Hl1 & Hp1 & Ht1).
    destruct (IH (t1, w1) c' Hrun) as (n2 & Hl2 & H2). cbn [fst snd] in *.
    exists (n1 ++ n2). split; [rewrite Hl2, Hl1, app_assoc; reflexivity |].
    rewrite existsb_app, orb_true_iff. intros H.
    destruct (H2 H) as [Hp | [Ht | Hf]]; [| | auto].
    + destruct (Hp1 Hp); auto.
    + destruct (Ht1 Ht); auto.
Qed.

(** X4. A build called with the signal open leaves it tripped exactly
    when some stat or listing failed during the build. *)
Theorem BuildTreeSafe_trips_iff_failure (os : OS) (path : string) (w : World)
    (r : option Node) (w' : World) :
  isTripped (sig w) = false ->
  consistent (sig w) ->
  Returns os path w r w' ->
  exists new,
    log w' = log w ++ new /\
    (isTripped (sig w') = true <-> existsb failed new = true).
Proof.
  intros Ht Hc [sched Hrun].
  destruct (run_alarm os sched (Enter path, w) (Done r, w') Hc Hrun)
    as (_ & new & Hlog & Halarm).
  destruct (run_quiet os sched (Enter path, w) (Done r, w') Hrun) as (new' & Hlog' & Hquiet).
  cbn [fst snd pending] in *.
  assert (new' = new) by (rewrite Hlog in Hlog'; exact (app_inv_head _ _ _ (eq_sym Hlog'))).
  subst new'. exists new. split; [exact Hlog |]. split.
  - intros Htr. destruct (Hquiet (or_intror Htr)) as [H | [H | H]]; congruence.
  - intros Hf. destruct (Halarm (or_introl Hf)) as [H | H]; [discriminate | exact H].
Qed.

Lemma sum_list_with_insert_le {A : Type} (f : A -> nat) (l : list A) (i k : nat) (x y : A) :
  l !! i = Some x -> k + f y <= f x ->
  k + sum_list_with f (<[i:=y]> l) <= sum_list_with f l.
Proof.
  revert i. induction l as [|z l IH]; intros [|i]; cbn; try discriminate.
  - intros [= ->] H. apply (Nat.le_trans _ (k + f y + sum_list_with f l)); [| apply Nat.add_le_mono_r, H].
    rewrite Nat.add_assoc. apply Nat.le_refl.
  - intros Hi H. specialize (IH i Hi H).
    rewrite Nat.add_assoc, (Nat.add_comm k (f z)), <- Nat.add_assoc.
    apply Nat.add_le_mono_l. exact IH.
Qed.

Lemma sum_budget_Go (path : string) (entries : list string) :
  sum_list_with budget (map (Go path) entries) = 0.
Proof. induction entries as [|e es IH]; cbn; auto. Qed.

Lemma step_budget (os : OS) (pos : list nat) :
  forall (t : Task) (w : World) (t' : Task) (w' : World),
    isTripped (sig w) = true ->
    step os pos t w = Some (t', w') ->
    exists new, log w' = log w ++ new /\ length new + budget t' <= budget t.
Proof.
  induction pos as [|i pos IH]; intros t w t' w' Ht Hstep.
  - destruct t as [parent name | p | p | | node p | | node kids | r]; cbn in Hstep.
    + rewrite Ht in Hstep. injection Hstep as <- <-. exists []. rewrite app_nil_r. auto.
    + rewrite Ht in Hstep. injection Hstep as <- <-. exists []. rewrite app_nil_r. auto.
    + destruct (Stat os p) as [info|].
      * destruct (fiIsDir info); cbn in Hstep; injection Hstep as <- <-;
          exists [EvStat p true]; cbn; auto.
      * injection Hstep as <- <-. exists [EvStat p false]. cbn. auto.
    + destruct (trip w) as [w1|] eqn:Htrip; [| discriminate].
      injection Hstep as <- <-. apply trip_inv in Htrip as [_ Hlog].
      exists []. rewrite app_nil_r. auto.
    + destruct (ReadDir os p) as [entries|]; injection Hstep as <- <-.
      * exists [EvReadDir p true]. cbn [budget]. rewrite sum_budget_Go. auto.
      * exists [EvReadDir p false]. cbn. auto.
    + destruct (trip w) as [w1|] eqn:Htrip; [| discriminate].
      injection Hstep as <- <-. apply trip_inv in Htrip as [_ Hlog].
      exists []. rewrite app_nil_r. auto.
    + destruct (mapM slot kids); [| discriminate]. injection Hstep as <- <-.
      exists []. rewrite app_nil_r. cbn. split; [reflexivity | apply Nat.le_0_l].
    + discriminate.
  - destruct t as [| | | | | | node kids |]; try discriminate. cbn in Hstep.
    destruct (kids !! i) as [kid|] eqn:Hkid; [| discriminate].
    destruct (step os pos kid w) as [[kid' w'']|] eqn:Hkidstep; [| discriminate].
    injection Hstep as <- <-.
    destruct (IH _ _ _ _ Ht Hkidstep) as (new & Hlog & Hle).
    exists new. split; [exact Hlog |]. cbn [budget].
    exact (sum_list_with_insert_le budget kids i (length new) kid kid' Hkid Hle).
Qed.

(** X5. Cancellation is advisory and bounded: once the signal is
    tripped, a build in any state makes no more filesystem accesses
    than its [budget], two for each goroutine that is past its poll and
    before its stat, one for each that is before its listing, and none
    for all others, the goroutines spawned after the trip among them. *)
Theorem BuildTreeSafe_after_trip (os : OS) (sched : Schedule) (t : Task) (w : World)
    (t' : Task) (w' : World) :
  isTripped (sig w) = true ->
  run os sched (t, w) = Some (t', w') ->
  isTripped (sig w') = true /\
  exists new, log w' = log w ++ new /\ length new + budget t' <= budget t.
Proof.
  intros Ht Hrun. split; [exact (run_monotone os sched (t, w) (t', w') Hrun Ht) |].
  revert t w Ht Hrun. induction sched as [|pos sched IH]; intros t w Ht; cbn [run fst snd].
  - intros [= -> ->]. exists []. rewrite app_nil_r. auto.
  - destruct (step os pos t w) as [[t1 w1]|] eqn:Hstep; [| discriminate].
    intros Hrun. destruct (step_budget os pos _ _ _ _ Ht Hstep) as (n1 & Hl1 & Hb1).
    pose proof (step_monotone os pos _ _ _ _ Hstep Ht) as Ht1.
    destruct (IH t1 w1 Ht1 Hrun) as (n2 & Hl2 & Hb2).
    exists (n1 ++ n2). split; [rewrite Hl2, Hl1, app_assoc; reflexivity |].
    rewrite length_app. lia.
Qed.

(** X6. On a finite subtree, with the signal in a state the process
    can be in, a build cannot hang or run forever: no run is longer
    than [1 + costStat], a run that has not returned always has a
    goroutine that can move (nothing stays blocked in [wg.Wait()]), and
    it can be continued to a run that returns. *)
Theorem BuildTreeSafe_no_deadlock (os : OS) (d : nat) (path : string) (w : World)
    (sched : Schedule) (c : Task * World) :
  fits os d path = true ->
  consistent (sig w) ->
  run os sched (Enter path, w) = Some c ->
  length sched <= 1 + costStat os d path /\
  ((exists r, c.1 = Done r) \/ (exists pos c', step os pos c.1 c.2 = Some c')) /\
  (exists sched' r w', run os (sched ++ sched') (Enter path, w) = Some (Done r, w')).
Proof.
  intros Hfit Hc Hrun.
  destruct (proj2 (BuildTreeSafe_terminates os d path w Hfit Hc) sched c Hrun) as [Hlen Hext].
  split; [exact Hlen |]. split; [| exact Hext].
  destruct (next c.1) as [pos|] eqn:Hnext.
  - right. pose proof (run_consistent os sched (Enter path, w) c Hc Hrun) as Hcc.
    destruct (next_step os c.1 c.2 pos Hcc Hnext) as [c' Hstep]. eauto.
  - left. apply next_None. exact Hnext.
Qed.

(** ** The command *)

Lemma present_nil (lib : Lib) (args : Args) (re : option Regexp) (info : FileInfo) :
  present lib args re info None =
  (if negb (String.eqb (argSearch args) "") then [] else [fiName info], Panicked).
Proof. unfold present. destruct (negb _); reflexivity. Qed.

Lemma present_wf (lib : Lib) (args : Args) (re : option Regexp) (info : FileInfo)
    (n : Node) :
  wf n ->
  (present lib args re info (Some n)).2 = Returned /\
  (argSearch args = "" ->
   exists rest, (present lib args re info (Some n)).1 = fiName info :: rest).
Proof.
  intros Hwf. unfold present. cbn [SearchDFS PrintTreeDFS].
  rewrite (SearchNode_preorder _ (argSearch args) n Hwf).
  rewrite (PrintNode_blocks re (argDirsOnly args) n Hwf).
  split.
  - destruct (negb _); reflexivity.
  - intros ->. cbn. eauto.
Qed.

(** X12. [main], given a regex that compiles (or none) and a root that
    stats, under every schedule of the build that returns: it dies on
    a nil pointer exactly when the root is a directory whose listing
    fails, since it hands the nil result of [BuildTreeSafe] to
    [SearchDFS] or [PrintTreeDFS] unchecked; it has then printed the
    root's name and nothing else in print mode, and nothing in search
    mode.  In print mode the first line is always the root's name. *)
Theorem main_panics_iff_unreadable_root (os : OS) (lib : Lib) (args : Args)
    (sched : Schedule) (out : Out) (info : FileInfo) :
  (argRegex args = "" \/ exists re, libCompile lib (argRegex args) = inl re) ->
  Stat os (libClean lib (argPath args)) = Some info ->
  main os lib args sched = Some out ->
  (out.2 = Panicked <->
   fiIsDir info = true /\ ReadDir os (libClean lib (argPath args)) = None) /\
  (out.2 = Panicked ->
   out.1 = if negb (String.eqb (argSearch args) "") then [] else [fiName info]) /\
  (argSearch args = "" -> exists rest, out.1 = fiName info :: rest).
Proof.
  intros Hre Hstat. unfold main.
  set (root := libClean lib (argPath args)) in *.
  set (w0 := {| sig := initial; log := [EvStat root true] |}).
  assert (Hc : exists re,
             (if negb (String.eqb (argRegex args) "")
              then match libCompile lib (argRegex args) with
                   | inl re => inl (Some re)
                   | inr err => inr err
                   end
              else inl None) = (inl re : option Regexp + string)).
  { destruct Hre as [-> | [re Hre]]; [eauto |].
    rewrite Hre. destruct (negb _); eauto. }
  destruct Hc as [re ->]. rewrite Hstat.
  destruct (run os sched (Enter root, w0)) as [[[| | | | | | |r] w']|] eqn:Hrun;
    try discriminate.
  intros [= <-].
  assert (Hnil : forall x, present lib args re info None = x ->
             x.2 = Panicked /\
             x.1 = (if negb (String.eqb (argSearch args) "") then [] else [fiName info]) /\
             (argSearch args = "" -> exists rest, x.1 = fiName info :: rest)).
  { intros x <-. rewrite present_nil. cbn. split; [reflexivity |]. split; [reflexivity |].
    intros ->. cbn. eauto. }
  assert (Hsome : forall n, r = Some n ->
             (present lib args re info r).2 = Returned /\
             (argSearch args = "" ->
              exists rest, (present lib args re info r).1 = fiName info :: rest)).
  { intros n ->. apply present_wf.
    assert (Hret : Returns os root w0 (Some n) w') by (exists sched; exact Hrun).
    exact (proj1 (Built_sound os n root (Returns_Built os root w0 n w' Hret))). }
  destruct (run_Enter os sched root w0 r w' Hrun)
    as [(Ht' & _) | [(_ & Hs & _) | [(i & _ & Hs & Hd & Hr) | [(i & _ & Hs & Hd & Hread & ->) |
        (i & es & sched0 & slots & _ & Hs & Hd & Hread & _ & _ & Hr)]]]];
    try discriminate; try congruence.
  - assert (i = info) by congruence. subst i.
    destruct (Hsome _ Hr) as [Hret Hfirst]. rewrite Hret.
    split; [split; [discriminate | intros [H _]; congruence] |].
    split; [discriminate | exact Hfirst].
  - assert (i = info) by congruence. subst i.
    destruct (Hnil _ eq_refl) as (Hp & Ho & Hfirst). rewrite Hp.
    split; [split; auto |]. split; [intros _; exact Ho | exact Hfirst].
  - assert (i = info) by congruence. subst i.
    destruct (Hsome _ Hr) as [Hret Hfirst]. rewrite Hret.
    split; [split; [discriminate | intros [_ H]; congruence] |].
    split; [discriminate | exact Hfirst].
Qed.

Lemma main_panics_iff_unreadable_root_witness :
  let args := mkArgs "/locked" "" "" false in
  let out := (["locked"], Panicked) in
  (argRegex args = "" \/ exists re, libCompile testLib (argRegex args) = inl re) /\
  Stat lockedOS (libClean testLib (argPath args)) = Some (mkInfo "locked" true) /\
  main lockedOS testLib args [[]; []; []; []] = Some out /\
  (out.2 = Panicked <->
   fiIsDir (mkInfo "locked" true) = true /\
   ReadDir lockedOS (libClean testLib (argPath args)) = None) /\
  (out.2 = Panicked ->
   out.1 = if negb (String.eqb (argSearch args) "") then [] else [fiName (mkInfo "locked" true)]) /\
  (argSearch args = "" -> exists rest, out.1 = fiName (mkInfo "locked" true) :: rest).
Proof.
  cbn zeta. split; [left; reflexivity |]. split; [reflexivity |]. split; [reflexivity |].
  apply (main_panics_iff_unreadable_root lockedOS testLib (mkArgs "/locked" "" "" false)
           [[]; []; []; []] (["locked"], Panicked) (mkInfo "locked" true));
    [left; reflexivity | reflexivity | reflexivity].
Defined.

(** The command on the test directory and on bad input. *)
Example main_tests :
  main testOS testLib (mkArgs "/tmp/dir2" "" "" false) [[]; []; []; [0]; [0]; [0]; []] =
    Some (["dir2"; "└── file5.txt"], Returned) /\
  main testOS testLib (mkArgs "/tmp/dir2" "FILE" "" false) [[]; []; []; [0]; [0]; [0]; []] =
    Some (["/tmp/dir2/file5.txt"], Returned) /\
  main testOS testLib (mkArgs "/tmp" "" "(" false) [] =
    Some (["Invalid regex: error parsing regexp: missing closing ): `(`"], Returned) /\
  main testOS testLib (mkArgs "/nope" "" "" false) [] =
    Some (["Invalid path: stat /nope: no such file or directory"], Returned) /\
  main lockedOS testLib (mkArgs "/locked" "x" "" false) [[]; []; []; []] =
    Some ([], Panicked).
Proof. repeat split; vm_compute; reflexivity. Qed.

(** ** Instances *)

Lemma BuildTreeSafe_result_sound_witness :
  let n := dir "r" "/r" [leaf "b" "/r/b"] in
  let w' := {| sig := {| closed := true; onceDone := true |};
               log := [EvStat "/r" true; EvReadDir "/r" true;
                       EvStat "/r/b" true; EvStat "/r/a" false] |} in
  Returns brokenOS "/r" startup (Some n) w' /\
  wf n /\ leafless n /\ Path n = "/r" /\ Forall (mirrors brokenOS) (nodes n).
Proof.
  cbn zeta.
  assert (H : Returns brokenOS "/r" startup (Some (dir "r" "/r" [leaf "b" "/r/b"]))
                {| sig := {| closed := true; onceDone := true |};
                   log := [EvStat "/r" true; EvReadDir "/r" true;
                           EvStat "/r/b" true; EvStat "/r/a" false] |}).
  { exists [[]; []; []; [1]; [1]; [1]; [0]; [0]; [0]; [0]; []]. vm_compute. reflexivity. }
  split; [exact H |].
  exact (BuildTreeSafe_result_sound brokenOS "/r" startup _ _ H).
Defined.

Lemma BuildTreeSafe_then_consumers_witness :
  let n := dir "r" "/r" [leaf "b" "/r/b"] in
  let w' := {| sig := {| closed := true; onceDone := true |};
               log := [EvStat "/r" true; EvReadDir "/r" true;
                       EvStat "/r/b" true; EvStat "/r/a" false] |} in
  Returns brokenOS "/r" startup (Some n) w' /\
  (forall ToLower q,
      (SearchDFS ToLower (Some n) q).2 = Returned /\
      Forall (fun p => is_Some (Stat brokenOS p)) (SearchDFS ToLower (Some n) q).1) /\
  (forall prefix regex dirsOnly,
      (PrintTreeDFS (Some n) prefix regex dirsOnly).2 = Returned) /\
  (forall prefix,
      length (PrintTreeDFS (Some n) prefix None false).1 = length (nodes n) - 1).
Proof.
  cbn zeta.
  assert (H : Returns brokenOS "/r" startup (Some (dir "r" "/r" [leaf "b" "/r/b"]))
                {| sig := {| closed := true; onceDone := true |};
                   log := [EvStat "/r" true; EvReadDir "/r" true;
                           EvStat "/r/b" true; EvStat "/r/a" false] |}).
  { exists [[]; []; []; [1]; [1]; [1]; [0]; [0]; [0]; [0]; []]. vm_compute. reflexivity. }
  split; [exact H |].
  exact (BuildTreeSafe_then_consumers brokenOS "/r" startup _ _ H).
Defined.

Lemma BuildTreeSafe_without_failure_witness :
  let n := dir "d" "/d" [leaf "b" "/d/b"; leaf "a" "/d/a"; leaf "c" "/d/c"] in
  snapshot unsortedOS 1 "/d" = Some n /\
  isTripped (sig startup) = false /\
  consistent (sig startup) /\
  (exists w', Returns unsortedOS "/d" startup (Some n) w') /\
  (forall r w',
      Returns unsortedOS "/d" startup r w' ->
      r = Some n /\ sig w' = sig startup /\
      exists new, log w' = log startup ++ new /\ existsb failed new = false).
Proof.
  cbn zeta. split; [reflexivity |]. split; [reflexivity |]. split; [reflexivity |].
  apply (BuildTreeSafe_without_failure unsortedOS 1 "/d" startup); reflexivity.
Defined.

Lemma BuildTreeSafe_trips_iff_failure_witness :
  let w' := {| sig := {| closed := true; onceDone := true |};
               log := [EvStat "/r" true; EvReadDir "/r" true;
                       EvStat "/r/b" true; EvStat "/r/a" false] |} in
  isTripped (sig startup) = false /\
  consistent (sig startup) /\
  Returns brokenOS "/r" startup (Some (dir "r" "/r" [leaf "b" "/r/b"])) w' /\
  exists new,
    log w' = log startup ++ new /\
    (isTripped (sig w') = true <-> existsb failed new = true).
Proof.
  cbn zeta.
  assert (H : Returns brokenOS "/r" startup (Some (dir "r" "/r" [leaf "b" "/r/b"]))
                {| sig := {| closed := true; onceDone := true |};
                   log := [EvStat "/r" true; EvReadDir "/r" true;
                           EvStat "/r/b" true; EvStat "/r/a" false] |}).
  { exists [[]; []; []; [1]; [1]; [1]; [0]; [0]; [0]; [0]; []]. vm_compute. reflexivity. }
  split; [reflexivity |]. split; [reflexivity |]. split; [exact H |].
  exact (BuildTreeSafe_trips_iff_failure brokenOS "/r" startup _ _ eq_refl eq_refl H).
Defined.

Lemma BuildTreeSafe_after_trip_witness :
  let w := {| sig := {| closed := true; onceDone := true |}; log := [] |} in
  let t := Wait (mkNode "tmp" [] true "/tmp") [AtStat "/tmp/dir1"; Go "/tmp" "dir2"] in
  let t' := Done (Some (dir "tmp" "/tmp" [dir "dir1" "/tmp/dir1" []])) in
  let w' := {| sig := {| closed := true; onceDone := true |};
               log := [EvStat "/tmp/dir1" true; EvReadDir "/tmp/dir1" true] |} in
  let sched := [[0]; [0]; [1]; [0; 0]; [0; 1]; [0]; []] in
  isTripped (sig w) = true /\
  run testOS sched (t, w) = Some (t', w') /\
  isTripped (sig w') = true /\
  exists new, log w' = log w ++ new /\ length new + budget t' <= budget t.
Proof.
  cbn zeta. split; [reflexivity |]. split; [reflexivity |].
  apply (BuildTreeSafe_after_trip testOS [[0]; [0]; [1]; [0; 0]; [0; 1]; [0]; []]);
    reflexivity.
Defined.

Lemma BuildTreeSafe_no_deadlock_witness :
  let c := (AtReadDir (mkNode "tmp" [] true "/tmp") "/tmp",
            {| sig := initial; log := [EvStat "/tmp" true] |}) in
  fits testOS 3 "/tmp" = true /\
  consistent (sig startup) /\
  run testOS [[]; []] (Enter "/tmp", startup) = Some c /\
  length ([[]; []] : Schedule) <= 1 + costStat testOS 3 "/tmp" /\
  ((exists r, c.1 = Done r) \/ (exists pos c', step testOS pos c.1 c.2 = Some c')) /\
  (exists sched' r w',
      run testOS ([[]; []] ++ sched') (Enter "/tmp", startup) = Some (Done r, w')).
Proof.
  cbn zeta. split; [reflexivity |]. split; [reflexivity |]. split; [reflexivity |].
  apply (BuildTreeSafe_no_deadlock testOS 3 "/tmp" startup [[]; []]); reflexivity.
Defined.

(** ** The children of a built directory, slot by slot *)







